(** * ORF-RATER, [psite_trimmed.py]: P-site offset estimation

    A shallow embedding of the script's data and functions, followed by
    the properties of its annotation index, offset mapper, tally
    accumulator, reduction and offset resolver.

    Conventions of the embedding.
    - Python integers are [Z]; list indices produced by [enumerate] are
      [nat] and are injected into [Z] where the script does arithmetic
      on them.
    - A call that raises is modelled by [None] in the option monad (the
      script has no [try]/[except], so every exception ends the run).
    - The tally matrices are [np.uint32] arrays: their cells are [Z]
      values reduced modulo [2^32] on every write.  After the reduction
      the aggregate is converted with [astype(np.float64)]; its cells are
      integers below [2^32], which float64 holds exactly, and the model
      keeps them as [Z] (float64 arithmetic on integers is exact as long
      as magnitudes stay below [2^53]).
    - [pysam], [numpy], [multiprocessing] and yeti's [read_length_nmis]
      are libraries outside the repository; the parts of their behaviour
      the script relies on are written out below, next to the code that
      uses them. *)

From Stdlib Require Import ZArith List Lia Bool Ascii String.
From stdpp Require Import base option list gmap strings sets pretty.

Local Open Scope Z_scope.

(** ** numpy *)

Module Numpy.

(** A 1-D array is a list of cells, a 2-D array a list of rows. *)
Abbreviation vector := (list Z).
Abbreviation matrix := (list (list Z)).

Definition uint32 (z : Z) : Z := z mod 2 ^ 32.

(** [np.zeros((r, c), np.uint32)]; a negative dimension raises. *)
Definition zeros (r c : Z) : option matrix :=
  if (r <? 0) || (c <? 0) then None
  else Some (replicate (Z.to_nat r) (replicate (Z.to_nat c) 0)).

(** Index normalisation along an axis of extent [n]: a negative index
    counts from the end, anything outside [-n, n) raises IndexError. *)
Definition index (n : nat) (i : Z) : option nat :=
  if (0 <=? i) && (i <? Z.of_nat n) then Some (Z.to_nat i)
  else if (- Z.of_nat n <=? i) && (i <? 0) then Some (Z.to_nat (i + Z.of_nat n))
  else None.

(** [a[i, j] += 1] on a uint32 array. *)
Definition iadd1 (a : matrix) (i j : Z) : option matrix :=
  r ← index (length a) i;
  row ← a !! r;
  c ← index (length row) j;
  x ← row !! c;
  Some (<[r := <[c := uint32 (x + 1)]> row]> a).

(** [x + a] for a Python int [x] and a uint32 array [a], and [a + b]
    for two uint32 arrays of one shape. *)
Definition scalar_add (x : Z) (a : matrix) : matrix :=
  map (map (fun v => uint32 (x + v))) a.

Definition add (a b : matrix) : matrix :=
  zip_with (zip_with (fun u v => uint32 (u + v))) a b.

(** [v.sum()] and [a.sum(1)]. *)
Definition sum (v : vector) : Z := foldr Z.add 0 v.

Definition sum1 (a : matrix) : vector := map sum a.

(** [np.argmax]: scan from the left, keep the first maximal index; an
    empty array raises ValueError. *)
Fixpoint argmax_from (best : Z) (besti i : nat) (v : vector) : nat :=
  match v with
  | [] => besti
  | x :: v' =>
      if best <? x then argmax_from x i (S i) v'
      else argmax_from best besti (S i) v'
  end.

Definition argmax (v : vector) : option nat :=
  match v with
  | [] => None
  | x :: v' => Some (argmax_from x 0%nat 1%nat v')
  end.

(** [np.dot] of two 1-D arrays. *)
Definition dot (a v : vector) : Z := sum (zip_with Z.mul a v).

(** [np.correlate(a, v, 'full')] for real inputs: [a] is padded with
    [len(v) - 1] zeros on both sides and [v] slides over it, giving
    [len(a) + len(v) - 1] dot products. *)
Definition correlate_full (a v : vector) : vector :=
  let pad := replicate (length v - 1) 0 in
  let ap := pad ++ a ++ pad in
  map (fun k => dot (drop k ap) v) (seq 0 (length a + length v - 1)).

End Numpy.

(** ** pysam *)

(** An aligned read as the script sees it: its orientation, the
    reference positions of its aligned bases in read order, and the pair
    yeti's [read_length_nmis] computes from the record (read length
    after trimming 5' mismatches, number of 5' mismatches).  That
    function is not part of the repository and is treated as opaque: the
    pair is carried by the record. *)
Record AlignedRead := {
  is_reverse : bool;
  positions : list Z;
  length_nmis : Z * Z
}.

Definition read_length_nmis (read : AlignedRead) : Z * Z := length_nmis read.

(** An open alignment file: [fetch(reference, start, end)] yields the
    reads overlapping the interval. *)
Record Samfile := {
  fetch : string -> Z -> Z -> list AlignedRead
}.

(** ** The script *)

Record Options := {
  minrdlen : Z;
  maxrdlen : Z;
  max5mis : Z;
  numproc : Z;
  offsetfile : string;
  tallyfile : option string
}.

(** One parsed line of the CDS BED file: columns 0, 5, 6 and 7. *)
Record BedLine := {
  chrom : string;
  strand : string;
  thickstart : Z;
  thickend : Z
}.

Abbreviation key := (string * string)%type.
Abbreviation gcoord_index := (gmap key (gset Z)).

(** [gcoorddict[k]] on a [defaultdict(set)]. *)
Definition lookup_default (d : gcoord_index) (k : key) : gset Z :=
  default ∅ (d !! k).

(** The body of the loop over the BED lines. *)
Definition add_bedline (d : gcoord_index) (ls : BedLine) : gcoord_index :=
  if decide (thickstart ls ≠ thickend ls) then
    if decide (strand ls = "+"%string) then
      <[(chrom ls, strand ls) := lookup_default d (chrom ls, strand ls) ∪ {[thickstart ls]}]> d
    else
      <[(chrom ls, strand ls) := lookup_default d (chrom ls, strand ls) ∪ {[thickend ls - 1]}]> d
  else d.

Definition build_gcoorddict (cdsbed : list BedLine) : gcoord_index :=
  foldl add_bedline ∅ cdsbed.

(** [enumerate]. *)
Fixpoint enumerate_from {A} (i : nat) (l : list A) : list (nat * A) :=
  match l with
  | [] => []
  | x :: l' => (i, x) :: enumerate_from (S i) l'
  end.

Definition enumerate {A} (l : list A) : list (nat * A) := enumerate_from 0 l.

(** [next(gen, None)]. *)
Definition next_or_none {A} (gen : list A) : option A := head gen.

Definition offset_to_gcoord (read : AlignedRead) (gcoord : Z) : option Z :=
  if is_reverse read then
    next_or_none
      (map (fun ip : nat * Z => Z.of_nat (length (positions read)) - Z.of_nat ip.1 - 1)
           (filter (fun ip : nat * Z => ip.2 = gcoord) (enumerate (positions read))))
  else
    next_or_none
      (map (fun ip : nat * Z => Z.of_nat ip.1)
           (filter (fun ip : nat * Z => ip.2 = gcoord) (enumerate (positions read)))).

Definition get_reads (inbams : list Samfile) (chrom : string) (strand : string)
    (gcoord : Z) : list AlignedRead :=
  if decide (strand = "+"%string) then
    filter (fun rd => is_reverse rd = false)
           (concat (map (fun bamfile => fetch bamfile chrom gcoord (gcoord + 1)) inbams))
  else
    filter (fun rd => is_reverse rd = true)
           (concat (map (fun bamfile => fetch bamfile chrom gcoord (gcoord + 1)) inbams)).

(** A [for] loop whose body may raise. *)
Fixpoint for_each {A B} (body : B -> A -> option B) (acc : B) (it : list A) : option B :=
  match it with
  | [] => Some acc
  | x :: it' => acc' ← body acc x; for_each body acc' it'
  end.

(** The body of the loop over the reads of one start codon. *)
Definition tally_read (opts : Options) (gcoord : Z) (offset_tallies : Numpy.matrix)
    (read : AlignedRead) : option Numpy.matrix :=
  let '(rdlen, nmis) := read_length_nmis read in
  if (minrdlen opts <=? rdlen) && (rdlen <=? maxrdlen opts) && (nmis <=? max5mis opts) then
    match offset_to_gcoord read gcoord with
    | Some curr_offset =>
        if nmis <=? curr_offset then
          Numpy.iadd1 offset_tallies (rdlen - minrdlen opts) (curr_offset - nmis)
        else Some offset_tallies
    | None => Some offset_tallies
    end
  else Some offset_tallies.

(** [map_start_sites((chrom, strand))].  A Python set is iterated in an
    unspecified order; [set_iter] is that order. *)
Definition map_start_sites (opts : Options) (inbams : list Samfile)
    (gcoorddict : gcoord_index) (set_iter : gset Z -> list Z) (k : key)
    : option Numpy.matrix :=
  offset_tallies ← Numpy.zeros (maxrdlen opts + 1 - minrdlen opts) (maxrdlen opts);
  for_each
    (fun tallies gcoord =>
       for_each (tally_read opts gcoord) tallies (get_reads inbams k.1 k.2 gcoord))
    offset_tallies (set_iter (lookup_default gcoorddict k)).

(** ** multiprocessing *)

Module Pool.

(** [mp.Pool(processes)]: fewer than one process raises ValueError. *)
Definition create (processes : Z) : option nat :=
  if processes <? 1 then None else Some (Z.to_nat processes).

(** The chunk size [map] chooses for an iterable of [len] items. *)
Definition chunksize (nworkers len : nat) : nat :=
  if (len =? 0)%nat then 0%nat
  else if (len mod (nworkers * 4) =? 0)%nat then (len / (nworkers * 4))%nat
  else S (len / (nworkers * 4)).

(** [_get_tasks]: cut the iterable into chunks of [size] items until
    a slice comes back empty. *)
Fixpoint get_tasks {A} (fuel size : nat) (it : list A) : list (list A) :=
  match fuel with
  | O => []
  | S fuel' =>
      match take size it with
      | [] => []
      | x => x :: get_tasks fuel' size (drop size it)
      end
  end.

(** [MapResult._set(i, result)] on success:
    [value[i*chunksize:(i+1)*chunksize] = result]. *)
Definition set_slice {B} (value : list B) (lo hi : nat) (result : list B) : list B :=
  take lo value ++ result ++ drop hi value.

(** [pool.map(func, iterable)]: the iterable is cut into tasks, each task
    is mapped by a worker, and the results of a task are stored in the
    task's slots as it completes; a task that raises makes the call
    raise.  [schedule] is the order in which the tasks complete; the
    slots are all filled when the last one has. *)
Definition map {A B} (nworkers : nat)
    (schedule : list (nat * list A) -> list (nat * list A))
    (func : A -> option B) (iterable : list A) : option (list B) :=
  let size := chunksize nworkers (length iterable) in
  value ← for_each
            (fun value (task : nat * list A) =>
               result ← mapM func task.2;
               Some (set_slice value (task.1 * size) ((task.1 + 1) * size) (Some <$> result)))
            (replicate (length iterable) None)
            (schedule (enumerate (get_tasks (length iterable) size iterable)));
  mapM id value.

End Pool.

(** ** Reduction and offsets *)

Inductive pyval :=
  | PyInt (n : Z)
  | NdArray (a : Numpy.matrix).

(** The builtin [sum]: a left fold of [+] starting from the int [0]. *)
Definition py_add (acc : pyval) (m : Numpy.matrix) : pyval :=
  match acc with
  | PyInt n => NdArray (Numpy.scalar_add n m)
  | NdArray a => NdArray (Numpy.add a m)
  end.

Definition py_sum (results : list Numpy.matrix) : pyval := foldl py_add (PyInt 0) results.

(** [.astype(np.float64)]; an int has no such attribute. *)
Definition astype_float64 (v : pyval) : option Numpy.matrix :=
  match v with
  | PyInt _ => None
  | NdArray a => Some a
  end.

(** Line 95: the row with the most reads. *)
Definition master_rdlen_idx (offset_tallies : Numpy.matrix) : option nat :=
  Numpy.argmax (Numpy.sum1 offset_tallies).

(** [offset_tallies[master_rdlen_idx, :]]. *)
Definition master_row (offset_tallies : Numpy.matrix) : option Numpy.vector :=
  idx ← master_rdlen_idx offset_tallies;
  offset_tallies !! idx.

(** Line 96. *)
Definition master_offset (offset_tallies : Numpy.matrix) : option nat :=
  row ← master_row offset_tallies;
  Numpy.argmax row.

(** Line 97: one offset per row of the aggregate. *)
Definition offsets (opts : Options) (offset_tallies : Numpy.matrix) : option (list Z) :=
  master ← master_row offset_tallies;
  master_off ← master_offset offset_tallies;
  mapM (fun row =>
          lag ← Numpy.argmax (Numpy.correlate_full row master);
          Some (Z.of_nat master_off + Z.of_nat lag + 1 - maxrdlen opts))
       offset_tallies.

(** ** Output *)

Definition tab : string := String "009"%char EmptyString.
Definition newline : string := String "010"%char EmptyString.

Definition join (sep : string) (parts : list string) : string :=
  match parts with
  | [] => EmptyString
  | p :: ps => foldl (fun acc q => acc +:+ sep +:+ q) p ps
  end.

(** [str] of a float64 holding a non-negative integer below [2^32]. *)
Definition str_float (z : Z) : string := pretty z +:+ ".0".

(** Lines 89-90: one line per read length; the aggregate has a row for
    each of them. *)
Definition tally_text (opts : Options) (offset_tallies : Numpy.matrix) : string :=
  String.concat EmptyString
    (List.map (fun rdlen : Z =>
                 join tab (pretty rdlen
                           :: List.map str_float
                                (default [] (offset_tallies !! Z.to_nat (rdlen - minrdlen opts))))
                 +:+ newline)
              (seqZ (minrdlen opts) (maxrdlen opts + 1 - minrdlen opts))).

(** Lines 100-102. *)
Definition offset_text (opts : Options) (offs : list Z) : string :=
  String.concat EmptyString
    (List.map (fun io : nat * Z =>
                 pretty (minrdlen opts + Z.of_nat io.1) +:+ tab +:+ pretty io.2 +:+ newline)
              (enumerate offs)).

(** ** The run *)

(** What the run leaves behind: for every alignment file opened at line
    30 whether its handle is still open, and the files written. *)
Record World := {
  handles : list bool;
  files : gmap string string
}.

(** Statements of the script: they change the world and either go on
    with a value or raise, which ends the run where it stands. *)
Definition Script (A : Type) : Type := World -> option A * World.

#[local] Instance script_ret : MRet Script := fun A a w => (Some a, w).

#[local] Instance script_bind : MBind Script := fun A B f m w =>
  match m w with
  | (Some a, w') => f a w'
  | (None, w') => (None, w')
  end.

Definition eval {A} (o : option A) : Script A := fun w => (o, w).

Definition open_samfiles (bams : list Samfile) : Script (list Samfile) := fun w =>
  (Some bams, {| handles := handles w ++ replicate (length bams) true; files := files w |}).

Definition close_samfile (i : nat) : Script unit := fun w =>
  (Some tt, {| handles := <[i := false]> (handles w); files := files w |}).

Definition write_file (path content : string) : Script unit := fun w =>
  (Some tt, {| handles := handles w; files := <[path := content]> (files w) |}).

Fixpoint script_for {A} (body : A -> Script unit) (it : list A) : Script unit :=
  match it with
  | [] => mret tt
  | x :: it' => _ ← body x; script_for body it'
  end.

(** The ways a run may go that the script does not fix: the iteration
    order of a set, the order in which the dictionary lists its keys, and
    the order in which the pool's tasks complete. *)
Record Order := {
  iter : gset Z -> list Z;
  keys : gcoord_index -> list key;
  schedule : list (nat * list key) -> list (nat * list key)
}.

(** Lines 83-85: the pool, the map over the work units and the
    reduction. *)
Definition reduce_tallies (opts : Options) (inbams : list Samfile)
    (gcoorddict : gcoord_index) (ord : Order) : option Numpy.matrix :=
  workers ← Pool.create (numproc opts);
  results ← Pool.map workers (schedule ord)
              (map_start_sites opts inbams gcoorddict (iter ord)) (keys ord gcoorddict);
  astype_float64 (py_sum results).

(** Lines 87-104: the optional tally file, the offsets, the offset file,
    and the loop closing the alignment files. *)
Definition write_and_close (opts : Options) (inbams : list Samfile)
    (offset_tallies : Numpy.matrix) : Script unit :=
  _ ← match tallyfile opts with
      | Some path => write_file path (tally_text opts offset_tallies)
      | None => mret tt
      end;
  offs ← eval (offsets opts offset_tallies);
  _ ← write_file (offsetfile opts) (offset_text opts offs);
  script_for (fun ih : nat * Samfile => close_samfile ih.1) (enumerate inbams).

(** The script from line 30 on.  [bams] are the alignment files named on
    the command line, [cdsbed] the parsed annotation lines. *)
Definition main (opts : Options) (bams : list Samfile) (cdsbed : list BedLine)
    (ord : Order) : Script unit :=
  inbams ← open_samfiles bams;
  offset_tallies ← eval (reduce_tallies opts inbams (build_gcoorddict cdsbed) ord);
  write_and_close opts inbams offset_tallies.

Definition start : World := {| handles := []; files := ∅ |}.

(** The outcome of a run: [true] when the script ran to its last line. *)
Definition completed (r : option unit * World) : bool :=
  match r.1 with Some _ => true | None => false end.

(** ** Vocabulary of the properties *)

(** [i] is the first index at which [v] takes its maximum. *)
Definition is_first_argmax (v : list Z) (i : nat) : Prop :=
  exists x, v !! i = Some x
    /\ (forall j y, v !! j = Some y -> y <= x)
    /\ (forall j y, (j < i)%nat -> v !! j = Some y -> y < x).

(** [i] is the first index of [ps] holding [g]. *)
Definition is_first_index (ps : list Z) (g : Z) (i : nat) : Prop :=
  ps !! i = Some g /\ forall j, (j < i)%nat -> ps !! j <> Some g.



(** The shape every tally matrix of a run has. *)
Definition tally_shape (opts : Options) (t : Numpy.matrix) : Prop :=
  0 <= maxrdlen opts
  /\ Z.of_nat (length t) = maxrdlen opts + 1 - minrdlen opts
  /\ Forall (fun row => Z.of_nat (length row) = maxrdlen opts) t.

(** The four filters of the tally loop, with the offset they let through. *)
Definition passes_filters (opts : Options) (gcoord : Z) (read : AlignedRead) (off : Z) : Prop :=
  minrdlen opts <= (read_length_nmis read).1 <= maxrdlen opts
  /\ (read_length_nmis read).2 <= max5mis opts
  /\ offset_to_gcoord read gcoord = Some off
  /\ (read_length_nmis read).2 <= off.

(** The coordinate a BED line contributes. *)
Definition start_codon (ls : BedLine) : Z :=
  if decide (strand ls = "+"%string) then thickstart ls else thickend ls - 1.

Definition get_cell (t : Numpy.matrix) (i j : nat) : option Z :=
  row ← t !! i; row !! j.

(** A line contributes its start codon under its own key, unless its
    coding region is empty. *)
Definition contributes (ls : BedLine) (k : string * string) (z : Z) : Prop :=
  (chrom ls, strand ls) = k /\ thickstart ls <> thickend ls /\ z = start_codon ls.

(** [t] with the uint32 counter of cell [(r, c)] advanced by one. *)
Definition bump (r c : nat) (t : Numpy.matrix) : Numpy.matrix :=
  imap (fun i row =>
          imap (fun j x => if decide (i = r /\ j = c) then Numpy.uint32 (x + 1) else x) row)
       t.

(** The cell [a[i, j]] addresses, when both indices are in bounds. *)
Definition addressed (t : Numpy.matrix) (i j : Z) : option (nat * nat) :=
  r ← Numpy.index (length t) i;
  row ← t !! r;
  c ← Numpy.index (length row) j;
  Some (r, c).

(** The indices at which [tally_read] writes, if the read gets that far. *)
Definition tally_target (opts : Options) (gcoord : Z) (read : AlignedRead) : option (Z * Z) :=
  let '(rdlen, nmis) := read_length_nmis read in
  if (minrdlen opts <=? rdlen) && (rdlen <=? maxrdlen opts) && (nmis <=? max5mis opts) then
    match offset_to_gcoord read gcoord with
    | Some curr_offset =>
        if nmis <=? curr_offset then Some (rdlen - minrdlen opts, curr_offset - nmis) else None
    | None => None
    end
  else None.

(** The same options with another worker count. *)
Definition with_numproc (n : Z) (opts : Options) : Options :=
  {| minrdlen := minrdlen opts; maxrdlen := maxrdlen opts; max5mis := max5mis opts;
     numproc := n; offsetfile := offsetfile opts; tallyfile := tallyfile opts |}.

(** The defaults of the argument parser, for a run writing [offsets.txt]. *)
Definition default_opts : Options :=
  {| minrdlen := 27; maxrdlen := 34; max5mis := 1; numproc := 1;
     offsetfile := "offsets.txt"; tallyfile := None |}.

(** A forward read of 30 aligned bases starting at 100 with one trimmed
    5' mismatch, and a forward read of 40 aligned bases starting at 1000
    reported with trimmed length 30. *)
Definition read_30 : AlignedRead :=
  {| is_reverse := false; positions := Z.of_nat <$> seq 100 30; length_nmis := (29, 1) |}.

Definition read_40 : AlignedRead :=
  {| is_reverse := false; positions := Z.of_nat <$> seq 1000 40; length_nmis := (30, 0) |}.

(** The zero matrix of the default shape, 8 rows of 34 cells. *)
Definition zero_tallies : Numpy.matrix := replicate 8 (replicate 34 0).

(** A small configuration, read lengths 4 and 5, with an aggregate whose
    two rows are identical and one whose second row is zero. *)
Definition small_opts : Options :=
  {| minrdlen := 4; maxrdlen := 5; max5mis := 1; numproc := 1;
     offsetfile := "offsets.txt"; tallyfile := None |}.

Definition twin_tallies : Numpy.matrix := [[0; 0; 5; 5; 0]; [0; 0; 5; 5; 0]].

Definition sparse_tallies : Numpy.matrix := [[0; 0; 5; 5; 0]; [0; 0; 0; 0; 0]].

(** The reads a work unit looks at, each with the start codon it was
    fetched for, in the order of the two nested loops. *)
Definition visits (inbams : list Samfile) (k : string * string) (gcoords : list Z)
    : list (Z * AlignedRead) :=
  gcoords ≫= fun gcoord => (fun read => (gcoord, read)) <$> get_reads inbams k.1 k.2 gcoord.

(** Admissible orders: a set is iterated through its elements, the
    dictionary lists its keys, and every task completes, each once. *)
Definition set_order (set_iter : gset Z -> list Z) : Prop :=
  forall s, set_iter s ≡ₚ elements s.

Definition key_order (dict_keys : gmap (string * string) (gset Z) -> list (string * string))
    : Prop :=
  forall d, dict_keys d ≡ₚ elements (dom d).

Definition task_order {A} (sched : list (nat * list A) -> list (nat * list A)) : Prop :=
  forall tasks, sched tasks ≡ₚ tasks.

Definition admissible (ord : Order) : Prop :=
  set_order (iter ord) /\ key_order (keys ord) /\ task_order (schedule ord).

(** Two orders: everything in the order the model's containers list it
    and tasks completing in submission order, and everything reversed. *)
Definition in_order : Order :=
  {| iter := elements; keys := fun d => elements (dom d); schedule := fun tasks => tasks |}.

Definition reversed : Order :=
  {| iter := fun s => reverse (elements s);
     keys := fun d => reverse (elements (dom d));
     schedule := fun tasks => reverse tasks |}.

(** An alignment file with one read on chr1, and an annotation line
    whose start codon that read covers. *)
Definition one_read_bam : Samfile :=
  {| fetch := fun reference _ _ =>
                if decide (reference = "chr1"%string) then [read_30] else [] |}.

Definition cds_line : BedLine :=
  {| chrom := "chr1"; strand := "+"; thickstart := 113; thickend := 200 |}.

(** The sum, over a list of matrices, of what they hold in cell [(i, j)]. *)
Definition cell_total (units : list Numpy.matrix) (i j : nat) : Z :=
  Numpy.sum (map (fun u => default 0 (get_cell u i j)) units).

(** The result slots of a [map] over an iterable whose results are
    [ys], after the tasks numbered [done] have completed: the slots of
    those tasks hold their results and the others are still empty. *)
Definition slots_filled {B} (size : nat) (ys : list B) (done : list nat)
    (value : list (option B)) : Prop :=
  length value = length ys
  /\ forall p, (p < length ys)%nat ->
       value !! p = Some (if decide ((p / size)%nat ∈ done) then ys !! p else None).

(** How many of the visited reads are tallied in cell [(i, j)]. *)
Definition hits (opts : Options) (i j : nat) (vs : list (Z * AlignedRead)) : nat :=
  length (filter (fun gr : Z * AlignedRead =>
                    tally_target opts gr.1 gr.2 = Some (Z.of_nat i, Z.of_nat j)) vs).

(** No key of the dictionary holds an empty set. *)
Definition no_empty_unit (d : gmap (string * string) (gset Z)) : Prop :=
  forall k s, d !! k = Some s -> s <> ∅.

(** An alignment file whose read on chr1 is the long read, and an
    annotation line whose start codon is that read's last position. *)
Definition long_read_bam : Samfile :=
  {| fetch := fun reference _ _ =>
                if decide (reference = "chr1"%string) then [read_40] else [] |}.


(** How many reads the whole run tallies in cell [(i, j)], over all its
    work units. *)
Definition total_hits (opts : Options) (inbams : list Samfile)
    (d : gmap (string * string) (gset Z)) (ord : Order) (i j : nat) : Z :=
  Numpy.sum (map (fun k => Z.of_nat (hits opts i j
                                        (visits inbams k (iter ord (lookup_default d k)))))
                 (keys ord d)).

(** A profile moved [d] columns to the right (to the left for negative
    [d]) within its row, zeros entering at the other end; the move loses
    nothing when the cells pushed out of the row are zero. *)
Definition shift_columns (d : Z) (a : list Z) : list Z :=
  if 0 <=? d then replicate (Z.to_nat d) 0 ++ take (length a - Z.to_nat d) a
  else drop (Z.to_nat (- d)) a ++ replicate (Z.to_nat (- d)) 0.

Definition shift_lossless (d : Z) (a : list Z) : Prop :=
  if 0 <=? d then Forall (fun x => x = 0) (drop (length a - Z.to_nat d) a)
  else Forall (fun x => x = 0) (take (Z.to_nat (- d)) a).


(** Aggregates whose second row is the first moved one column left. *)
Definition shifted_tallies : Numpy.matrix := [[0; 0; 5; 5; 0]; [0; 5; 5; 0; 0]].

(** The files present once lines 87-90 have run. *)
Definition tally_written (opts : Options) (t : Numpy.matrix) (fs : gmap string string)
    : gmap string string :=
  match tallyfile opts with
  | Some path => <[path := tally_text opts t]> fs
  | None => fs
  end.


(** * rate_regression_output.py: locating the regression output

    Lines 44 to 64 of the second script decide, before any table is
    read, which files hold the regression output and what each data
    set is called.  They use [str.rpartition], [str.strip] and the
    POSIX flavour of [os.path]; the file system is consulted through
    [os.path.exists], [os.path.isfile] and [os.path.isdir] only. *)

(** Python's [str] methods, for a one-character separator. *)
Module Str.

Fixpoint contains (c : ascii) (s : string) : bool :=
  match s with
  | EmptyString => false
  | String x r => Ascii.eqb x c || contains c r
  end.

Definition startswith (c : ascii) (s : string) : bool :=
  match s with
  | EmptyString => false
  | String x _ => Ascii.eqb x c
  end.

Fixpoint endswith (c : ascii) (s : string) : bool :=
  match s with
  | EmptyString => false
  | String x EmptyString => Ascii.eqb x c
  | String _ r => endswith c r
  end.

(** [s.rpartition(sep)]: split at the last [sep]; [('', '', s)] when
    there is none. *)
Fixpoint rpartition (sep : ascii) (s : string) : string * string * string :=
  match s with
  | EmptyString => (EmptyString, EmptyString, EmptyString)
  | String x r =>
      if contains sep r then
        let '(h, m, t) := rpartition sep r in (String x h, m, t)
      else if Ascii.eqb x sep then (EmptyString, String sep EmptyString, r)
      else (EmptyString, EmptyString, s)
  end.

Fixpoint lstrip (c : ascii) (s : string) : string :=
  match s with
  | EmptyString => EmptyString
  | String x r => if Ascii.eqb x c then lstrip c r else s
  end.

Fixpoint rstrip (c : ascii) (s : string) : string :=
  match s with
  | EmptyString => EmptyString
  | String x r =>
      match rstrip c r with
      | EmptyString => if Ascii.eqb x c then EmptyString else String x EmptyString
      | r' => String x r'
      end
  end.

(** [s.strip(c)] *)
Definition strip (c : ascii) (s : string) : string := rstrip c (lstrip c s).

(** [s[s.rfind(c) + 1:]], the whole of [s] when [c] does not occur. *)
Fixpoint after_last (c : ascii) (s : string) : string :=
  match s with
  | EmptyString => EmptyString
  | String x r =>
      if contains c r then after_last c r
      else if Ascii.eqb x c then r else s
  end.

End Str.

(** [posixpath] *)
Module Posixpath.

Definition sep : ascii := "/"%char.
Definition extsep : ascii := "."%char.
Definition pathsep : ascii := ":"%char.

Definition basename (p : string) : string := Str.after_last sep p.

(** [os.path.join(a, b)] *)
Definition join (a b : string) : string :=
  if Str.startswith sep b then b
  else if String.eqb a EmptyString || Str.endswith sep a then a +:+ b
  else a +:+ String sep EmptyString +:+ b.

(** What the script can observe of the file system. *)
Record FileSystem := {
  path_exists : string -> bool;
  isfile : string -> bool;
  isdir : string -> bool
}.

End Posixpath.

Module RateRegression.

(** The options lines 44 to 64 read; [names] is [None] unless given. *)
Record Options := {
  regressfile : list string;
  names : option (list string);
  ratingsfile : string;
  force : bool
}.

Inductive Exception :=
| IOError (msg : string)
| ValueError (msg : string).

(** The truth value of [opts.names]: [None] and the empty list are
    false. *)
Definition given (ns : option (list string)) : bool :=
  match ns with
  | Some (_ :: _) => true
  | _ => false
  end.

(** Line 53: ['/path/to/myfile.h5' -> 'myfile']. *)
Definition file_colname (regressfile : string) : string :=
  (Str.rpartition Posixpath.extsep (Posixpath.basename regressfile)).1.1.

(** Line 57. *)
Definition dir_colname (regressfile : string) : string :=
  Posixpath.basename (Str.strip Posixpath.pathsep regressfile).

Definition regression_h5 : string := "regression.h5".

(** The loop of lines 49 to 59, with the two lists it appends to. *)
Fixpoint resolve_loop (fs : Posixpath.FileSystem) (named : bool) (todo : list string)
    (regressfiles colnames : list string) : Exception + (list string * list string) :=
  match todo with
  | [] => inr (regressfiles, colnames)
  | regressfile :: rest =>
      if Posixpath.isfile fs regressfile then
        resolve_loop fs named rest (regressfiles ++ [regressfile])
          (if named then colnames else colnames ++ [file_colname regressfile])
      else if Posixpath.isdir fs regressfile
              && Posixpath.isfile fs (Posixpath.join regressfile regression_h5) then
        resolve_loop fs named rest
          (regressfiles ++ [Posixpath.join regressfile regression_h5])
          (if named then colnames else colnames ++ [dir_colname regressfile])
      else
        inl (IOError ("Regression file/directory " +:+ regressfile +:+ " not found"))
  end.

(** Lines 44 to 64: the resolved files and the names of the data sets,
    or the exception the script stops with. *)
Definition resolve (opts : Options) (fs : Posixpath.FileSystem)
    : Exception + (list string * list string) :=
  if negb (force opts) && Posixpath.path_exists fs (ratingsfile opts) then
    inl (IOError (ratingsfile opts +:+ " exists; use --force to overwrite"))
  else
    match resolve_loop fs (given (names opts)) (regressfile opts) [] [] with
    | inl e => inl e
    | inr (regressfiles, colnames) =>
        match names opts with
        | Some (n :: ns) =>
            if negb (length (regressfile opts) =? length (n :: ns))%nat then
              inl (ValueError "Precisely one name must be provided for each REGRESSFILE")
            else inr (regressfiles, n :: ns)
        | _ => inr (regressfiles, colnames)
        end
    end.

(** An input is found when it is a file, or a directory holding
    [regression.h5]. *)
Definition found (fs : Posixpath.FileSystem) (regressfile : string) : bool :=
  Posixpath.isfile fs regressfile
  || (Posixpath.isdir fs regressfile
      && Posixpath.isfile fs (Posixpath.join regressfile regression_h5)).

Definition resolved (fs : Posixpath.FileSystem) (regressfile : string) : string :=
  if Posixpath.isfile fs regressfile then regressfile
  else Posixpath.join regressfile regression_h5.

Definition inferred_name (fs : Posixpath.FileSystem) (regressfile : string) : string :=
  if Posixpath.isfile fs regressfile then file_colname regressfile
  else dir_colname regressfile.

(** A file system holding the listed files and directories. *)
Definition fs_of (files dirs : list string) : Posixpath.FileSystem :=
  {| Posixpath.path_exists := fun p => bool_decide (p ∈ files ++ dirs);
     Posixpath.isfile := fun p => bool_decide (p ∈ files);
     Posixpath.isdir := fun p => bool_decide (p ∈ dirs) |}.

End RateRegression.

(** The shape of a literal matrix is checked by evaluation. *)
Ltac shape_by_evaluation :=
  unfold tally_shape; simpl; split; [lia|]; split; [lia|]; repeat constructor.

(** * Properties *)

(** ** numpy: argmax *)

Section Argmax.

Implicit Types v pre : list Z.

Lemma argmax_from_first v : forall pre best besti,
  pre !! besti = Some best ->
  (forall j y, pre !! j = Some y -> y <= best) ->
  (forall j y, (j < besti)%nat -> pre !! j = Some y -> y < best) ->
  is_first_argmax (pre ++ v) (Numpy.argmax_from best besti (length pre) v).
Proof.
  induction v as [|x v IH]; intros pre best besti Hbest Hmax Hfirst; simpl.
  - rewrite app_nil_r. exists best. auto.
  - replace (pre ++ x :: v) with ((pre ++ [x]) ++ v) by (rewrite <- app_assoc; reflexivity).
    replace (S (length pre)) with (length (pre ++ [x])) by (rewrite length_app; simpl; lia).
    destruct (best <? x) eqn:Hlt.
    + apply Z.ltb_lt in Hlt. apply IH.
      * rewrite lookup_app_r by lia. replace (length pre - length pre)%nat with 0%nat by lia.
        reflexivity.
      * intros j y Hj. destruct (decide (j < length pre)%nat) as [Hl|Hl].
        -- rewrite lookup_app_l in Hj by assumption. specialize (Hmax _ _ Hj). lia.
        -- rewrite lookup_app_r in Hj by lia.
           destruct (j - length pre)%nat; simpl in Hj; [|discriminate].
           injection Hj as <-. lia.
      * intros j y Hl Hj. rewrite lookup_app_l in Hj by assumption.
        specialize (Hmax _ _ Hj). lia.
    + apply Z.ltb_ge in Hlt. apply IH.
      * apply lookup_lt_Some in Hbest as Hb. rewrite lookup_app_l by assumption. assumption.
      * intros j y Hj. destruct (decide (j < length pre)%nat) as [Hl|Hl].
        -- rewrite lookup_app_l in Hj by assumption. eauto.
        -- rewrite lookup_app_r in Hj by lia.
           destruct (j - length pre)%nat; simpl in Hj; [|discriminate].
           injection Hj as <-. lia.
      * intros j y Hl Hj. apply lookup_lt_Some in Hbest as Hb.
        rewrite lookup_app_l in Hj by lia. eauto.
Qed.

Lemma argmax_first v i : Numpy.argmax v = Some i -> is_first_argmax v i.
Proof.
  destruct v as [|x v]; simpl; [discriminate|].
  intros [= <-]. apply (argmax_from_first v [x] x 0%nat).
  - reflexivity.
  - intros [|j] y; simpl; [intros [= <-]; lia | discriminate].
  - intros j y Hj. lia.
Qed.

Lemma argmax_is_Some v : v <> [] -> is_Some (Numpy.argmax v).
Proof. destruct v; [congruence | simpl; eauto]. Qed.

Lemma first_argmax_unique v i j : is_first_argmax v i -> is_first_argmax v j -> i = j.
Proof.
  intros (x & Hx & Hmx & Hfx) (y & Hy & Hmy & Hfy).
  destruct (Nat.lt_trichotomy i j) as [Hlt|[Heq|Hgt]]; [|assumption|].
  - specialize (Hfy _ _ Hlt Hx). specialize (Hmx _ _ Hy). lia.
  - specialize (Hfx _ _ Hgt Hy). specialize (Hmy _ _ Hx). lia.
Qed.

Lemma argmax_intro v i : is_first_argmax v i -> Numpy.argmax v = Some i.
Proof.
  intros Hi. destruct (Numpy.argmax v) as [j|] eqn:Hj.
  - f_equal. eapply first_argmax_unique; [apply argmax_first|]; eassumption.
  - destruct v; [|discriminate]. destruct Hi as (x & Hx & _). discriminate.
Qed.

End Argmax.

(** ** OffsetMapper *)

Section OffsetMapper.

Implicit Types ps : list Z.

Lemma matches_none ps g : forall s,
  g ∉ ps -> filter (fun ip : nat * Z => ip.2 = g) (enumerate_from s ps) = [].
Proof.
  induction ps as [|p ps IH]; intros s Hg; simpl; [reflexivity|].
  rewrite filter_cons. simpl. apply not_elem_of_cons in Hg as [Hne Hg].
  destruct (decide (p = g)); [congruence | auto].
Qed.

Lemma matches_first ps g : forall s i,
  is_first_index ps g i ->
  head (filter (fun ip : nat * Z => ip.2 = g) (enumerate_from s ps)) = Some ((s + i)%nat, g).
Proof.
  induction ps as [|p ps IH]; intros s i [Hi Hfirst]; [discriminate|].
  simpl. rewrite filter_cons. simpl. destruct i as [|i].
  - simpl in Hi. injection Hi as ->. rewrite decide_True by reflexivity.
    simpl. do 2 f_equal. lia.
  - destruct (decide (p = g)) as [->|Hne].
    + exfalso. apply (Hfirst 0%nat); [lia | reflexivity].
    + rewrite (IH (S s) i).
      * do 2 f_equal. lia.
      * split; [exact Hi|]. intros j Hj. apply (Hfirst (S j)). lia.
Qed.

Lemma first_index_exists ps g : g ∈ ps -> exists i, is_first_index ps g i.
Proof.
  induction ps as [|p ps IH]; intros Hg; [inversion Hg|].
  destruct (decide (p = g)) as [->|Hne].
  - exists 0%nat. split; [reflexivity | intros j Hj; lia].
  - apply elem_of_cons in Hg as [->|Hg]; [congruence|].
    destruct (IH Hg) as (i & Hi & Hfirst). exists (S i). split; [exact Hi|].
    intros [|j] Hj; simpl; [congruence | apply Hfirst; lia].
Qed.

Lemma first_index_lt ps g i : is_first_index ps g i -> (i < length ps)%nat.
Proof. intros [Hi _]. eapply lookup_lt_Some, Hi. Qed.

Lemma offset_of_first_index read gcoord i :
  is_first_index (positions read) gcoord i ->
  offset_to_gcoord read gcoord =
    Some (if is_reverse read
          then Z.of_nat (length (positions read)) - 1 - Z.of_nat i
          else Z.of_nat i).
Proof.
  intros Hi. unfold offset_to_gcoord, next_or_none, enumerate.
  pose proof (matches_first _ _ 0%nat _ Hi) as Hhd.
  destruct (filter _ (enumerate_from 0 (positions read))) as [|[i' p'] rest];
    [discriminate|].
  simpl in Hhd. injection Hhd as -> ->.
  destruct (is_reverse read); simpl; f_equal; lia.
Qed.

Lemma offset_not_found read gcoord :
  gcoord ∉ positions read -> offset_to_gcoord read gcoord = None.
Proof.
  intros Hg. unfold offset_to_gcoord, next_or_none, enumerate.
  rewrite matches_none by assumption. destruct (is_reverse read); reflexivity.
Qed.

Lemma offset_in_range read gcoord k :
  offset_to_gcoord read gcoord = Some k ->
  0 <= k < Z.of_nat (length (positions read)).
Proof.
  intros Hk. destruct (decide (gcoord ∈ positions read)) as [Hin|Hout].
  - destruct (first_index_exists _ _ Hin) as [i Hi].
    pose proof (first_index_lt _ _ _ Hi).
    rewrite (offset_of_first_index _ _ _ Hi) in Hk. injection Hk as <-.
    destruct (is_reverse read); lia.
  - rewrite offset_not_found in Hk by assumption. discriminate.
Qed.

End OffsetMapper.

(** C3: the offset mapper returns the index of the first covered position
    equal to the coordinate for a forward read, the covered-position count
    minus one minus that index for a reverse read, and the not-found value
    [None] when no covered position equals the coordinate; a returned
    offset is always a valid index into the covered positions.  A forward
    read covering 100..103 queried at 100 and the reverse read covering
    the same positions queried at 103 both give 0. *)
Theorem offset_mapper_correct (read : AlignedRead) (gcoord : Z) :
  (gcoord ∈ positions read ->
     exists i, is_first_index (positions read) gcoord i
       /\ offset_to_gcoord read gcoord =
            Some (if is_reverse read
                  then Z.of_nat (length (positions read)) - 1 - Z.of_nat i
                  else Z.of_nat i))
  /\ (gcoord ∉ positions read -> offset_to_gcoord read gcoord = None)
  /\ (forall k, offset_to_gcoord read gcoord = Some k ->
        0 <= k < Z.of_nat (length (positions read)))
  /\ (forall ln, offset_to_gcoord
        {| is_reverse := false; positions := [100; 101; 102; 103]; length_nmis := ln |} 100
        = Some 0)
  /\ (forall ln, offset_to_gcoord
        {| is_reverse := true; positions := [100; 101; 102; 103]; length_nmis := ln |} 103
        = Some 0).
Proof.
  split; [|split; [|split; [|split]]].
  - intros Hin. destruct (first_index_exists _ _ Hin) as [i Hi].
    exists i. split; [exact Hi | apply offset_of_first_index, Hi].
  - apply offset_not_found.
  - apply offset_in_range.
  - reflexivity.
  - reflexivity.
Qed.

Lemma offset_mapper_correct_witness :
  offset_to_gcoord
    {| is_reverse := true; positions := [7; 8; 9; 8]; length_nmis := (4, 0) |} 8 = Some 2
  /\ offset_to_gcoord
       {| is_reverse := false; positions := [7; 8; 9; 8]; length_nmis := (4, 0) |} 5 = None.
Proof.
  split.
  - destruct (offset_mapper_correct
                {| is_reverse := true; positions := [7; 8; 9; 8]; length_nmis := (4, 0) |} 8)
      as (Hfound & _).
    destruct Hfound as (i & [Hi Hfirst] & Hoff).
    + apply list_elem_of_In. simpl. auto.
    + destruct i as [|[|i]].
      * discriminate.
      * exact Hoff.
      * exfalso. apply (Hfirst 1%nat); [lia | reflexivity].
  - apply (offset_mapper_correct
             {| is_reverse := false; positions := [7; 8; 9; 8]; length_nmis := (4, 0) |} 5).
    intros Hin. apply list_elem_of_In in Hin. simpl in Hin. intuition discriminate.
Defined.

(** ** AnnotationIndex *)

Section AnnotationIndex.

Implicit Types (d : gmap (string * string) (gset Z)) (ls : BedLine).

Lemma lookup_default_insert d k k' (s : gset Z) :
  lookup_default (<[k := s]> d) k' = if decide (k = k') then s else lookup_default d k'.
Proof.
  unfold lookup_default. rewrite lookup_insert. destruct (decide (k = k')); reflexivity.
Qed.

Lemma elem_of_add_bedline d ls k z :
  z ∈ lookup_default (add_bedline d ls) k <->
  z ∈ lookup_default d k \/ contributes ls k z.
Proof.
  unfold add_bedline, contributes, start_codon.
  destruct (decide (thickstart ls <> thickend ls)) as [Hne|He].
  - destruct (decide (strand ls = "+"%string)) as [Hs|Hs];
      rewrite lookup_default_insert;
      (destruct (decide ((chrom ls, strand ls) = k)) as [<-|Hk];
       [rewrite elem_of_union, elem_of_singleton; tauto | tauto]).
  - tauto.
Qed.

Lemma elem_of_fold_bedlines cdsbed : forall d k z,
  z ∈ lookup_default (foldl add_bedline d cdsbed) k <->
  z ∈ lookup_default d k \/ exists ls, ls ∈ cdsbed /\ contributes ls k z.
Proof.
  induction cdsbed as [|l cdsbed IH]; intros d k z; simpl.
  - split; [auto|]. intros [H|(ls & Hin & _)]; [exact H | inversion Hin].
  - rewrite IH, elem_of_add_bedline. split.
    + intros [[H|H]|(ls & Hin & H)]; [auto | right | right].
      * exists l. split; [left | exact H].
      * exists ls. split; [right; exact Hin | exact H].
    + intros [H|(ls & Hin & H)]; [auto|].
      apply elem_of_cons in Hin as [->|Hin]; [auto | right; eauto].
Qed.

End AnnotationIndex.

(** C5: under every (chromosome, strand) key the annotation index holds
    exactly the coordinates contributed by the records of that key whose
    thick region is not empty -- thickStart for a record on the forward
    strand, thickEnd - 1 otherwise -- and, being a set, holds each of them
    once however many records contribute it. *)
Theorem annotation_index_correct (cdsbed : list BedLine) (k : string * string) :
  (forall z : Z,
     z ∈ lookup_default (build_gcoorddict cdsbed) k <->
     exists ls, ls ∈ cdsbed
       /\ (chrom ls, strand ls) = k
       /\ thickstart ls <> thickend ls
       /\ z = if decide (strand ls = "+"%string) then thickstart ls else thickend ls - 1)
  /\ NoDup (elements (lookup_default (build_gcoorddict cdsbed) k)).
Proof.
  split; [|apply NoDup_elements].
  intros z. unfold build_gcoorddict. rewrite elem_of_fold_bedlines.
  unfold lookup_default at 1. rewrite lookup_empty. simpl.
  split.
  - intros [H|H]; [exfalso; revert H; apply not_elem_of_empty | exact H].
  - auto.
Qed.

(** ** TallyAccumulator *)

Section Tally.

Implicit Types (t : list (list Z)) (opts : Options) (read : AlignedRead).

Lemma index_in_range n i :
  0 <= i < Z.of_nat n -> Numpy.index n i = Some (Z.to_nat i).
Proof.
  intros Hi. unfold Numpy.index.
  destruct (Z.leb_spec 0 i); [|lia]. destruct (Z.ltb_spec i (Z.of_nat n)); [|lia].
  reflexivity.
Qed.


Lemma index_lt n i r : Numpy.index n i = Some r -> (r < n)%nat.
Proof.
  unfold Numpy.index.
  destruct (Z.leb_spec 0 i), (Z.ltb_spec i (Z.of_nat n)); simpl;
    try (intros [= <-]; lia);
    destruct (Z.leb_spec (- Z.of_nat n) i), (Z.ltb_spec i 0); simpl;
    try discriminate; intros [= <-]; lia.
Qed.

Lemma lookup_bump r c t i :
  bump r c t !! i =
  imap (fun j x => if decide (i = r /\ j = c) then Numpy.uint32 (x + 1) else x) <$> t !! i.
Proof. unfold bump. rewrite list_lookup_imap. destruct (t !! i); reflexivity. Qed.

Lemma get_cell_bump r c t i j :
  get_cell (bump r c t) i j =
  (fun x => if decide (i = r /\ j = c) then Numpy.uint32 (x + 1) else x) <$> get_cell t i j.
Proof.
  unfold get_cell. rewrite lookup_bump. destruct (t !! i) as [row|]; simpl; [|reflexivity].
  rewrite list_lookup_imap. destruct (row !! j); reflexivity.
Qed.

Lemma length_bump r c t : length (bump r c t) = length t.
Proof. unfold bump. apply length_imap. Qed.

Lemma bump_row_length r c t i row :
  bump r c t !! i = Some row -> exists row0, t !! i = Some row0 /\ length row = length row0.
Proof.
  rewrite lookup_bump. destruct (t !! i) as [row0|]; simpl; [|discriminate].
  intros [= <-]. exists row0. split; [reflexivity | apply length_imap].
Qed.

Lemma insert_is_bump t r c row x :
  t !! r = Some row -> row !! c = Some x ->
  <[r := <[c := Numpy.uint32 (x + 1)]> row]> t = bump r c t.
Proof.
  intros Hr Hc. apply list_eq. intros i. rewrite lookup_bump, list_lookup_insert.
  apply lookup_lt_Some in Hr as Hlt.
  destruct (decide (r = i /\ (r < length t)%nat)) as [[<- _]|Hne].
  - rewrite Hr. simpl. f_equal. apply list_eq. intros j.
    rewrite list_lookup_imap, list_lookup_insert. apply lookup_lt_Some in Hc as Hltc.
    destruct (decide (c = j /\ (c < length row)%nat)) as [[<- _]|Hnc].
    + rewrite Hc. simpl. rewrite decide_True by auto. reflexivity.
    + destruct (row !! j) as [y|]; simpl; [|reflexivity].
      rewrite decide_False by (intros [_ ->]; apply Hnc; auto). reflexivity.
  - destruct (t !! i) as [rowi|] eqn:Hi; simpl; [|reflexivity]. f_equal.
    apply list_eq. intros j. rewrite list_lookup_imap.
    destruct (rowi !! j) as [y|]; simpl; [|reflexivity].
    rewrite decide_False by (intros [-> _]; apply Hne; auto). reflexivity.
Qed.

(** An in-place increment either raises or bumps the addressed cell. *)
Lemma iadd1_addressed t i j :
  Numpy.iadd1 t i j = (rc ← addressed t i j; Some (bump rc.1 rc.2 t)).
Proof.
  unfold Numpy.iadd1, addressed.
  destruct (Numpy.index (length t) i) as [r|]; simpl; [|reflexivity].
  destruct (t !! r) as [row|] eqn:Hr; simpl; [|reflexivity].
  destruct (Numpy.index (length row) j) as [c|] eqn:Hc; simpl; [|reflexivity].
  apply index_lt in Hc. destruct (lookup_lt_is_Some_2 row c Hc) as [x Hx].
  rewrite Hx. simpl. f_equal. apply insert_is_bump; assumption.
Qed.

Lemma tally_read_target opts gcoord t read :
  tally_read opts gcoord t read =
  match tally_target opts gcoord read with
  | Some ij => Numpy.iadd1 t ij.1 ij.2
  | None => Some t
  end.
Proof.
  unfold tally_read, tally_target. destruct (read_length_nmis read) as [rdlen nmis].
  destruct (_ && _); [|reflexivity].
  destruct (offset_to_gcoord read gcoord) as [off|]; [|reflexivity].
  destruct (nmis <=? off); reflexivity.
Qed.

Lemma tally_target_filters opts gcoord read i j :
  tally_target opts gcoord read = Some (i, j) <->
  exists off, passes_filters opts gcoord read off
    /\ i = (read_length_nmis read).1 - minrdlen opts
    /\ j = off - (read_length_nmis read).2.
Proof.
  unfold tally_target, passes_filters. destruct (read_length_nmis read) as [rdlen nmis]. simpl.
  destruct (Z.leb_spec (minrdlen opts) rdlen), (Z.leb_spec rdlen (maxrdlen opts)),
    (Z.leb_spec nmis (max5mis opts)); simpl;
    try (split; [discriminate | intros (off & ([? ?] & ? & _) & _); lia]).
  destruct (offset_to_gcoord read gcoord) as [off|].
  - destruct (Z.leb_spec nmis off).
    + split.
      * intros [= <- <-]. exists off. auto with lia.
      * intros (off' & (_ & _ & [= <-] & _) & -> & ->). reflexivity.
    + split; [discriminate|]. intros (off' & (_ & _ & [= <-] & ?) & _). lia.
  - split; [discriminate|]. intros (off' & (_ & _ & ? & _) & _). discriminate.
Qed.

Lemma tally_shape_bump opts r c t : tally_shape opts t -> tally_shape opts (bump r c t).
Proof.
  intros (Hmax & Hrows & Hcols). split; [exact Hmax|]. split.
  - rewrite length_bump. exact Hrows.
  - apply Forall_lookup_2. intros i row Hi.
    destruct (bump_row_length _ _ _ _ _ Hi) as (row0 & H0 & ->).
    eapply (Forall_lookup_1 _ _ _ _ Hcols), H0.
Qed.

Lemma addressed_in_shape opts t i j :
  tally_shape opts t ->
  0 <= i <= maxrdlen opts - minrdlen opts -> 0 <= j < maxrdlen opts ->
  addressed t i j = Some (Z.to_nat i, Z.to_nat j).
Proof.
  intros (Hmax & Hrows & Hcols) Hi Hj. unfold addressed.
  rewrite index_in_range by lia. simpl.
  destruct (lookup_lt_is_Some_2 t (Z.to_nat i)) as [row Hrow]; [lia|].
  rewrite Hrow. simpl. pose proof (Forall_lookup_1 _ _ _ _ Hcols Hrow) as Hlen.
  simpl in Hlen. rewrite index_in_range by lia. reflexivity.
Qed.



End Tally.

(** C2 (amended): on a matrix of the run's shape, a read that passes the
    four filters (length within bounds, mismatches within the maximum,
    offset found, offset at least the mismatch count) and whose column
    offset - mismatches lies below maxReadLength advances the uint32
    counter of cell [trimmedLength - minReadLength][offset - mismatches]
    by one and leaves every other cell as it was; a read that fails a
    filter leaves the matrix unchanged, in particular a read of trimmed
    length minReadLength - 1 and a read with more mismatches than the
    maximum; and a read that changes the matrix passes the four
    filters. *)
Theorem tally_read_correct (opts : Options) (gcoord : Z) (t : list (list Z))
    (read : AlignedRead) :
  tally_shape opts t ->
  (forall off,
     passes_filters opts gcoord read off ->
     off - (read_length_nmis read).2 < maxrdlen opts ->
     exists t' x,
       tally_read opts gcoord t read = Some t'
       /\ get_cell t (Z.to_nat ((read_length_nmis read).1 - minrdlen opts))
                     (Z.to_nat (off - (read_length_nmis read).2)) = Some x
       /\ get_cell t' (Z.to_nat ((read_length_nmis read).1 - minrdlen opts))
                      (Z.to_nat (off - (read_length_nmis read).2))
          = Some (Numpy.uint32 (x + 1))
       /\ (0 <= x < 2 ^ 32 - 1 -> Numpy.uint32 (x + 1) = x + 1)
       /\ (forall i' j',
             (i', j') <> (Z.to_nat ((read_length_nmis read).1 - minrdlen opts),
                          Z.to_nat (off - (read_length_nmis read).2)) ->
             get_cell t' i' j' = get_cell t i' j'))
  /\ ((forall off, ~ passes_filters opts gcoord read off) ->
      tally_read opts gcoord t read = Some t)
  /\ ((read_length_nmis read).1 = minrdlen opts - 1 ->
      tally_read opts gcoord t read = Some t)
  /\ (max5mis opts < (read_length_nmis read).2 ->
      tally_read opts gcoord t read = Some t)
  /\ (forall t', tally_read opts gcoord t read = Some t' -> t' <> t ->
        exists off, passes_filters opts gcoord read off).
Proof.
  intros Hshape.
  assert (Hskip : (forall off, ~ passes_filters opts gcoord read off) ->
                  tally_read opts gcoord t read = Some t).
  { intros Hno. rewrite tally_read_target.
    destruct (tally_target opts gcoord read) as [[i j]|] eqn:Htgt; [|reflexivity].
    apply tally_target_filters in Htgt as (off & Hpass & _). destruct (Hno _ Hpass). }
  split; [|split; [exact Hskip | split; [|split]]].
  - intros off Hpass Hcol.
    set (i := (read_length_nmis read).1 - minrdlen opts).
    set (j := off - (read_length_nmis read).2).
    assert (Htgt : tally_target opts gcoord read = Some (i, j))
      by (apply tally_target_filters; eauto).
    destruct Hpass as (Hlen & Hmis & Hoff & Hge).
    assert (Haddr : addressed t i j = Some (Z.to_nat i, Z.to_nat j))
      by (apply (addressed_in_shape opts); [assumption | unfold i; lia | unfold j; lia]).
    assert (Hcell : is_Some (get_cell t (Z.to_nat i) (Z.to_nat j))).
    { unfold addressed in Haddr. unfold get_cell.
      destruct (Numpy.index (length t) i) as [r|]; simpl in Haddr; [|discriminate].
      destruct (t !! r) as [row|] eqn:Hrow; simpl in Haddr; [|discriminate].
      destruct (Numpy.index (length row) j) as [c|] eqn:Hc; simpl in Haddr; [|discriminate].
      injection Haddr as -> ->. rewrite Hrow. simpl.
      apply lookup_lt_is_Some_2. eapply index_lt, Hc. }
    destruct Hcell as [x Hx].
    exists (bump (Z.to_nat i) (Z.to_nat j) t), x.
    split; [|split; [exact Hx | split; [|split]]].
    + rewrite tally_read_target, Htgt. simpl. rewrite iadd1_addressed, Haddr. reflexivity.
    + rewrite get_cell_bump, Hx. simpl. rewrite decide_True by auto. reflexivity.
    + intros Hx32. unfold Numpy.uint32. apply Z.mod_small. lia.
    + intros i' j' Hne. rewrite get_cell_bump.
      destruct (get_cell t i' j') as [y|]; simpl; [|reflexivity].
      rewrite decide_False by (intros [-> ->]; apply Hne; reflexivity). reflexivity.
  - intros Hshort. apply Hskip. intros off (Hlen & _). lia.
  - intros Hmany. apply Hskip. intros off (_ & Hmis & _). lia.
  - intros t' Ht' Hne. rewrite tally_read_target in Ht'.
    destruct (tally_target opts gcoord read) as [[i j]|] eqn:Htgt.
    + apply tally_target_filters in Htgt as (off & Hpass & _). eauto.
    + congruence.
Qed.

Lemma tally_read_correct_witness :
  exists t', tally_read default_opts 113 zero_tallies read_30 = Some t'
    /\ get_cell t' 2 12 = Some 1.
Proof.
  destruct (tally_read_correct default_opts 113 zero_tallies read_30) as (Hinc & _).
  - shape_by_evaluation.
  - destruct (Hinc 13) as (t' & x & Ht' & Hx & Hx' & _ & _).
    + unfold passes_filters. simpl. repeat split; lia.
    + simpl. lia.
    + exists t'. split; [exact Ht'|]. simpl in Hx, Hx'.
      injection Hx as <-. exact Hx'.
Defined.

(** C2 as stated fails: a read can pass all four filters and still not
    be tallied, because its column lies beyond the matrix and the write
    raises. *)
Lemma tally_read_column_overflow :
  tally_shape default_opts zero_tallies
  /\ passes_filters default_opts 1039 read_40 39
  /\ tally_read default_opts 1039 zero_tallies read_40 = None.
Proof.
  split; [|split].
  - shape_by_evaluation.
  - unfold passes_filters. simpl. repeat split; lia.
  - reflexivity.
Qed.

(** C10: for a read that passes the four filters and covers at most
    trimmedLength + mismatches positions, the row index lies in
    [0, maxReadLength - minReadLength] and the column index in
    [0, maxReadLength - 1], so the write falls inside a matrix of the
    run's shape and does not raise. *)
Theorem tally_write_in_bounds (opts : Options) (gcoord : Z) (t : list (list Z))
    (read : AlignedRead) (off : Z) :
  tally_shape opts t ->
  passes_filters opts gcoord read off ->
  Z.of_nat (length (positions read)) <= (read_length_nmis read).1 + (read_length_nmis read).2 ->
  0 <= (read_length_nmis read).1 - minrdlen opts <= maxrdlen opts - minrdlen opts
  /\ 0 <= off - (read_length_nmis read).2 <= maxrdlen opts - 1
  /\ exists t', tally_read opts gcoord t read = Some t' /\ tally_shape opts t'.
Proof.
  intros Hshape Hpass Hcover.
  assert (Htgt : tally_target opts gcoord read
                 = Some ((read_length_nmis read).1 - minrdlen opts,
                         off - (read_length_nmis read).2))
    by (apply tally_target_filters; eauto).
  destruct Hpass as (Hlen & Hmis & Hoff & Hge).
  pose proof (offset_in_range _ _ _ Hoff) as Hrange.
  split; [lia|]. split; [lia|].
  exists (bump (Z.to_nat ((read_length_nmis read).1 - minrdlen opts))
               (Z.to_nat (off - (read_length_nmis read).2)) t).
  split; [|apply tally_shape_bump, Hshape].
  rewrite tally_read_target, Htgt. simpl. rewrite iadd1_addressed.
  rewrite (addressed_in_shape opts) by (assumption || lia). reflexivity.
Qed.

Lemma tally_write_in_bounds_witness :
  0 <= 29 - 27 <= 34 - 27 /\ 0 <= 13 - 1 <= 34 - 1
  /\ exists t', tally_read default_opts 113 zero_tallies read_30 = Some t'
       /\ tally_shape default_opts t'.
Proof.
  apply (tally_write_in_bounds default_opts 113 zero_tallies read_30 13).
  - shape_by_evaluation.
  - unfold passes_filters. simpl. repeat split; lia.
  - simpl. lia.
Defined.

(** ** numpy: sums, dot products and the full correlation *)

Section Correlate.

Implicit Types a u v w : list Z.

Lemma map_is_fmap {A B} (f : A -> B) (l : list A) : map f l = f <$> l.
Proof. reflexivity. Qed.


Lemma dot_cons x u y v : Numpy.dot (x :: u) (y :: v) = x * y + Numpy.dot u v.
Proof. reflexivity. Qed.

Lemma dot_take u v : Numpy.dot (take (length v) u) v = Numpy.dot u v.
Proof. unfold Numpy.dot. rewrite zip_with_take_l. reflexivity. Qed.

Lemma dot_app_l u w v : length u = length v -> Numpy.dot (u ++ w) v = Numpy.dot u v.
Proof. intros Hlen. rewrite <- dot_take, <- Hlen, take_app_length. reflexivity. Qed.

Lemma dot_zeros_l u v : Forall (fun x => x = 0) u -> Numpy.dot u v = 0.
Proof.
  intros Hu. revert v. induction Hu as [|x u -> _ IH]; intros [|y v]; try reflexivity.
  rewrite dot_cons, IH. lia.
Qed.

Lemma dot_self_nonneg u : 0 <= Numpy.dot u u.
Proof. induction u as [|x u IH]; [reflexivity | rewrite dot_cons; nia]. Qed.

Lemma dot_self_app u w : Numpy.dot (u ++ w) (u ++ w) = Numpy.dot u u + Numpy.dot w w.
Proof. induction u as [|x u IH]; simpl; [reflexivity | rewrite !dot_cons, IH; lia]. Qed.

Lemma dot_self_zeros n : Numpy.dot (replicate n 0) (replicate n 0) = 0.
Proof. apply dot_zeros_l, Forall_replicate. reflexivity. Qed.

Lemma dot_self_take n u : Numpy.dot (take n u) (take n u) <= Numpy.dot u u.
Proof.
  rewrite <- (take_drop n u) at 3 4. rewrite dot_self_app.
  pose proof (dot_self_nonneg (drop n u)). lia.
Qed.

Lemma dot_self_drop n u : Numpy.dot (drop n u) (drop n u) <= Numpy.dot u u.
Proof.
  rewrite <- (take_drop n u) at 3 4. rewrite dot_self_app.
  pose proof (dot_self_nonneg (take n u)). lia.
Qed.

(** Twice a dot product is bounded by the two squared norms, with
    equality only for equal vectors. *)
Lemma double_dot_le u : forall v,
  length u = length v -> 2 * Numpy.dot u v <= Numpy.dot u u + Numpy.dot v v.
Proof.
  induction u as [|x u IH]; intros [|y v] Hlen; simpl in Hlen; try lia.
  rewrite !dot_cons. specialize (IH v ltac:(lia)).
  pose proof (Z.square_nonneg (x - y)). nia.
Qed.

Lemma double_dot_eq u : forall v,
  length u = length v ->
  Numpy.dot u u + Numpy.dot v v <= 2 * Numpy.dot u v -> u = v.
Proof.
  induction u as [|x u IH]; intros [|y v] Hlen; simpl in Hlen; try lia; [reflexivity|].
  rewrite !dot_cons. intros Hle.
  assert (Hlen' : length u = length v) by lia.
  pose proof (double_dot_le u v Hlen') as Hrest.
  assert (Hsq : (x - y) * (x - y) <= 0) by nia.
  assert (x = y) by nia. subst y. f_equal. apply IH; [exact Hlen' | nia].
Qed.



Lemma length_correlate_full a v :
  length (Numpy.correlate_full a v) = (length a + length v - 1)%nat.
Proof. unfold Numpy.correlate_full. rewrite length_map, length_seq. reflexivity. Qed.

Lemma lookup_correlate_full a v k :
  (k < length a + length v - 1)%nat ->
  Numpy.correlate_full a v !! k =
  Some (Numpy.dot (drop k (replicate (length v - 1) 0 ++ a ++ replicate (length v - 1) 0)) v).
Proof.
  intros Hk. unfold Numpy.correlate_full. rewrite map_is_fmap, list_lookup_fmap.
  rewrite lookup_seq_lt by assumption. reflexivity.
Qed.


End Correlate.

(** ** OffsetResolver *)

Section Resolver.

Implicit Types (a row master : list Z) (t : list (list Z)) (opts : Options).

Lemma lookup_padded_window a k i :
  (i < length a)%nat ->
  take (length a) (drop k (replicate (length a - 1) 0 ++ a ++ replicate (length a - 1) 0)) !! i
  = (replicate (length a - 1) 0 ++ a ++ replicate (length a - 1) 0) !! (k + i)%nat.
Proof. intros Hi. rewrite lookup_take_lt by assumption. apply lookup_drop. Qed.

(** A vector that equals a proper right shift of itself is zero. *)
Lemma shifted_copy_zero a k :
  (k < length a - 1)%nat ->
  take (length a) (drop k (replicate (length a - 1) 0 ++ a ++ replicate (length a - 1) 0)) = a ->
  forall i x, a !! i = Some x -> x = 0.
Proof.
  intros Hk Heq i. induction i as [i IH] using lt_wf_ind. intros x Hx.
  apply lookup_lt_Some in Hx as Hi.
  pose proof (f_equal (fun l => l !! i) Heq) as Hlook. simpl in Hlook.
  rewrite lookup_padded_window in Hlook by assumption. rewrite Hx in Hlook.
  destruct (decide (k + i < length a - 1)%nat) as [Hpad|Hin].
  - rewrite lookup_app_l in Hlook by (rewrite length_replicate; assumption).
    rewrite lookup_replicate_2 in Hlook by assumption. congruence.
  - rewrite lookup_app_r, length_replicate in Hlook by (rewrite length_replicate; lia).
    rewrite lookup_app_l in Hlook by lia.
    apply (IH (k + i - (length a - 1))%nat); [lia | exact Hlook].
Qed.

Lemma correlate_self_bound a k :
  (k < length a + length a - 1)%nat ->
  Numpy.dot (drop k (replicate (length a - 1) 0 ++ a ++ replicate (length a - 1) 0)) a
  <= Numpy.dot a a.
Proof.
  intros Hk. set (ap := replicate (length a - 1) 0 ++ a ++ replicate (length a - 1) 0).
  rewrite <- dot_take.
  assert (Hlen : length (take (length a) (drop k ap)) = length a).
  { rewrite length_take, length_drop. unfold ap.
    rewrite !length_app, !length_replicate. lia. }
  pose proof (double_dot_le _ _ Hlen) as Hcs.
  pose proof (dot_self_take (length a) (drop k ap)) as Htake.
  pose proof (dot_self_drop k ap) as Hdrop.
  assert (Hap : Numpy.dot ap ap = Numpy.dot a a).
  { unfold ap. rewrite !dot_self_app, dot_self_zeros. lia. }
  lia.
Qed.

Lemma correlate_self_strict a k :
  (exists m x, a !! m = Some x /\ x <> 0) ->
  (k < length a - 1)%nat ->
  Numpy.dot (drop k (replicate (length a - 1) 0 ++ a ++ replicate (length a - 1) 0)) a
  < Numpy.dot a a.
Proof.
  intros (m & x & Hm & Hx) Hk.
  set (ap := replicate (length a - 1) 0 ++ a ++ replicate (length a - 1) 0).
  destruct (Z.lt_ge_cases (Numpy.dot (drop k ap) a) (Numpy.dot a a)) as [Hlt|Hge];
    [exact Hlt|].
  exfalso. apply Hx. apply (shifted_copy_zero a k Hk) with (i := m); [|exact Hm].
  fold ap. rewrite <- (dot_take (drop k ap) a) in Hge.
  assert (Hlen : length (take (length a) (drop k ap)) = length a).
  { rewrite length_take, length_drop. unfold ap.
    rewrite !length_app, !length_replicate. lia. }
  apply double_dot_eq; [exact Hlen|].
  pose proof (dot_self_take (length a) (drop k ap)) as Htake.
  pose proof (dot_self_drop k ap) as Hdrop.
  assert (Hap : Numpy.dot ap ap = Numpy.dot a a).
  { unfold ap. rewrite !dot_self_app, dot_self_zeros. lia. }
  lia.
Qed.

Lemma correlate_self_centre a :
  a <> [] ->
  Numpy.dot (drop (length a - 1)
               (replicate (length a - 1) 0 ++ a ++ replicate (length a - 1) 0)) a
  = Numpy.dot a a.
Proof.
  intros Hne.
  rewrite drop_app_length' by (rewrite length_replicate; reflexivity).
  apply dot_app_l. reflexivity.
Qed.

(** The self-correlation of a non-zero vector peaks first at the
    centre lag. *)
Lemma self_correlation_peak a :
  (exists m x, a !! m = Some x /\ x <> 0) ->
  is_first_argmax (Numpy.correlate_full a a) (length a - 1).
Proof.
  intros Hnz.
  assert (Hne : a <> []) by (destruct Hnz as (m & x & Hm & _); intros ->; discriminate).
  assert (Hpos : (0 < length a)%nat) by (destruct a; [congruence | simpl; lia]).
  exists (Numpy.dot a a). split; [|split].
  - rewrite lookup_correlate_full by lia. f_equal. apply correlate_self_centre, Hne.
  - intros j y Hj. apply lookup_lt_Some in Hj as Hlt.
    rewrite length_correlate_full in Hlt.
    rewrite lookup_correlate_full in Hj by assumption. injection Hj as <-.
    apply correlate_self_bound. assumption.
  - intros j y Hlt Hj. rewrite lookup_correlate_full in Hj by lia. injection Hj as <-.
    apply correlate_self_strict; assumption.
Qed.

(** Correlating a zero vector gives zeros, whose argmax is lag 0. *)
Lemma correlate_zero_row row master :
  Forall (fun x => x = 0) row ->
  Numpy.correlate_full row master = replicate (length row + length master - 1) 0.
Proof.
  intros Hz. apply list_eq. intros k.
  destruct (decide (k < length row + length master - 1)%nat) as [Hk|Hk].
  - rewrite lookup_correlate_full, lookup_replicate_2 by assumption. f_equal.
    apply dot_zeros_l, Forall_drop, Forall_app. split; [apply Forall_replicate; reflexivity|].
    apply Forall_app. split; [exact Hz | apply Forall_replicate; reflexivity].
  - rewrite (lookup_ge_None_2 (Numpy.correlate_full row master))
      by (rewrite length_correlate_full; lia).
    symmetry. apply lookup_replicate_None. lia.
Qed.

Lemma argmax_zeros n : Numpy.argmax (replicate (S n) 0) = Some 0%nat.
Proof.
  apply argmax_intro. exists 0. split; [reflexivity|]. split.
  - intros j y Hj. apply lookup_replicate_1 in Hj as [-> _]. lia.
  - intros j y Hj. lia.
Qed.

Lemma offsets_lookup opts t master mo offs i row :
  master_row t = Some master -> master_offset t = Some mo ->
  offsets opts t = Some offs -> t !! i = Some row ->
  exists lag, Numpy.argmax (Numpy.correlate_full row master) = Some lag
    /\ offs !! i = Some (Z.of_nat mo + Z.of_nat lag + 1 - maxrdlen opts).
Proof.
  intros Hmaster Hmo Hoffs Hrow. unfold offsets in Hoffs.
  rewrite Hmaster, Hmo in Hoffs. simpl in Hoffs. apply mapM_Some in Hoffs.
  destruct (Forall2_lookup_l _ _ _ _ _ Hoffs Hrow) as (y & Hy & Hf).
  destruct (Numpy.argmax (Numpy.correlate_full row master)) as [lag|]; [|discriminate].
  simpl in Hf. injection Hf as <-. exists lag. auto.
Qed.

(** On a matrix with at least one row and one column the resolver
    does not raise. *)
Lemma offsets_defined opts t :
  tally_shape opts t -> minrdlen opts <= maxrdlen opts -> 1 <= maxrdlen opts ->
  exists mi master mo offs,
    master_rdlen_idx t = Some mi /\ t !! mi = Some master
    /\ master_row t = Some master /\ master_offset t = Some mo
    /\ offsets opts t = Some offs /\ length offs = length t.
Proof.
  intros (Hmax & Hrows & Hcols) Hmin Hone.
  destruct (argmax_is_Some (Numpy.sum1 t)) as [mi Hmi].
  { destruct t; [simpl in Hrows; lia | discriminate]. }
  pose proof (argmax_first _ _ Hmi) as (s & Hs & _). apply lookup_lt_Some in Hs.
  unfold Numpy.sum1 in Hs. rewrite length_map in Hs.
  destruct (lookup_lt_is_Some_2 t mi Hs) as [master Hmaster].
  pose proof (Forall_lookup_1 _ _ _ _ Hcols Hmaster) as Hlen. simpl in Hlen.
  destruct (argmax_is_Some master) as [mo Hmo].
  { destruct master; [simpl in Hlen; lia | discriminate]. }
  assert (Hrow : master_row t = Some master).
  { unfold master_row, master_rdlen_idx. rewrite Hmi. exact Hmaster. }
  assert (Hoff : master_offset t = Some mo).
  { unfold master_offset. rewrite Hrow. exact Hmo. }
  assert (Hsome : is_Some (offsets opts t)).
  { unfold offsets. rewrite Hrow, Hoff. simpl. apply mapM_is_Some, Forall_forall.
    intros row Hin. simpl.
    pose proof (proj1 (Forall_forall _ _) Hcols row Hin) as Hlenr. simpl in Hlenr.
    destruct (argmax_is_Some (Numpy.correlate_full row master)) as [lag Hlag].
    - intros Hnil. apply (f_equal length) in Hnil.
      rewrite length_correlate_full in Hnil. simpl in Hnil. lia.
    - rewrite Hlag. simpl. eauto. }
  destruct Hsome as [offs Hoffs]. exists mi, master, mo, offs.
  repeat split; try assumption.
  unfold offsets in Hoffs. rewrite Hrow, Hoff in Hoffs. simpl in Hoffs.
  apply mapM_Some, Forall2_length in Hoffs. congruence.
Qed.

End Resolver.



(** C4: a row equal to the master row, the master row having a
    non-zero entry, is resolved to the master offset exactly: its
    self-correlation takes its maximum first at lag maxReadLength - 1,
    which the affine correction maps to a shift of zero. *)
Theorem identical_row_resolves_to_master_offset (opts : Options) (t : list (list Z))
    (master : list Z) (i : nat) :
  tally_shape opts t ->
  master_row t = Some master ->
  t !! i = Some master ->
  (exists m x, master !! m = Some x /\ x <> 0) ->
  exists mo offs,
    master_offset t = Some mo
    /\ offsets opts t = Some offs
    /\ Numpy.argmax (Numpy.correlate_full master master) = Some (Z.to_nat (maxrdlen opts - 1))
    /\ offs !! i = Some (Z.of_nat mo).
Proof.
  intros Hshape Hrow Hi Hnz.
  pose proof Hshape as (Hmax & Hrows & Hcols).
  pose proof (Forall_lookup_1 _ _ _ _ Hcols Hi) as Hlen. simpl in Hlen.
  assert (Hpos : (0 < length master)%nat).
  { destruct Hnz as (m & x & Hm & _). apply lookup_lt_Some in Hm. lia. }
  assert (Hrowsn : (0 < length t)%nat) by (apply lookup_lt_Some in Hi; lia).
  destruct (offsets_defined opts t Hshape ltac:(lia) ltac:(lia))
    as (mi & master' & mo & offs & _ & _ & Hrow' & Hmo & Hoffs & _).
  rewrite Hrow in Hrow'. injection Hrow' as <-.
  assert (Hpeak : Numpy.argmax (Numpy.correlate_full master master)
                  = Some (Z.to_nat (maxrdlen opts - 1))).
  { apply argmax_intro. replace (Z.to_nat (maxrdlen opts - 1)) with (length master - 1)%nat by lia.
    apply self_correlation_peak, Hnz. }
  exists mo, offs. split; [exact Hmo|]. split; [exact Hoffs|]. split; [exact Hpeak|].
  destruct (offsets_lookup _ _ _ _ _ _ _ Hrow Hmo Hoffs Hi) as (lag & Hlag & Hoff).
  rewrite Hpeak in Hlag. injection Hlag as <-. rewrite Hoff. f_equal. lia.
Qed.

Lemma identical_row_resolves_to_master_offset_witness :
  exists offs, offsets small_opts twin_tallies = Some offs /\ offs !! 1%nat = Some 2.
Proof.
  destruct (identical_row_resolves_to_master_offset small_opts twin_tallies [0; 0; 5; 5; 0] 1)
    as (mo & offs & Hmo & Hoffs & _ & Hoff).
  - shape_by_evaluation.
  - reflexivity.
  - reflexivity.
  - exists 2%nat, 5. split; [reflexivity | lia].
  - exists offs. split; [exact Hoffs|]. injection Hmo as <-. exact Hoff.
Defined.

(** C9: an all-zero row does not make the correlation step fail: its
    full cross-correlation against the master row is the zero vector,
    the argmax of that vector is lag 0, and the row's offset is
    masterOffset + 1 - maxReadLength. *)
Theorem zero_row_resolves (opts : Options) (t : list (list Z)) (row : list Z) (i : nat) :
  tally_shape opts t -> 1 <= maxrdlen opts ->
  t !! i = Some row ->
  Forall (fun x => x = 0) row ->
  exists master mo offs,
    master_row t = Some master
    /\ master_offset t = Some mo
    /\ Numpy.correlate_full row master = replicate (Z.to_nat (2 * maxrdlen opts - 1)) 0
    /\ Numpy.argmax (Numpy.correlate_full row master) = Some 0%nat
    /\ offsets opts t = Some offs
    /\ offs !! i = Some (Z.of_nat mo + 1 - maxrdlen opts).
Proof.
  intros Hshape Hone Hi Hz.
  pose proof Hshape as (Hmax & Hrows & Hcols).
  assert (Hrowsn : (0 < length t)%nat) by (apply lookup_lt_Some in Hi; lia).
  destruct (offsets_defined opts t Hshape ltac:(lia) Hone)
    as (mi & master & mo & offs & _ & Hmaster & Hrow & Hmo & Hoffs & _).
  pose proof (Forall_lookup_1 _ _ _ _ Hcols Hi) as Hr.
  pose proof (Forall_lookup_1 _ _ _ _ Hcols Hmaster) as Hm. simpl in Hr, Hm.
  assert (Hcorr : Numpy.correlate_full row master
                  = replicate (Z.to_nat (2 * maxrdlen opts - 1)) 0).
  { rewrite correlate_zero_row by assumption. f_equal. lia. }
  assert (Hlag : Numpy.argmax (Numpy.correlate_full row master) = Some 0%nat).
  { rewrite Hcorr. replace (Z.to_nat (2 * maxrdlen opts - 1))
      with (S (Z.to_nat (2 * maxrdlen opts - 2))) by lia. apply argmax_zeros. }
  exists master, mo, offs. repeat (split; [assumption|]).
  destruct (offsets_lookup _ _ _ _ _ _ _ Hrow Hmo Hoffs Hi) as (lag & Hlag' & Hoff).
  rewrite Hlag in Hlag'. injection Hlag' as <-. rewrite Hoff. f_equal. lia.
Qed.

Lemma zero_row_resolves_witness :
  exists offs, offsets small_opts sparse_tallies = Some offs /\ offs !! 1%nat = Some (-2).
Proof.
  destruct (zero_row_resolves small_opts sparse_tallies [0; 0; 0; 0; 0] 1)
    as (master & mo & offs & Hrow & Hmo & _ & _ & Hoffs & Hoff).
  - shape_by_evaluation.
  - simpl. lia.
  - reflexivity.
  - repeat constructor.
  - exists offs. split; [exact Hoffs|]. injection Hmo as <-. exact Hoff.
Defined.

(** ** Reduction *)

Section Reduction.

Implicit Types (a m : list (list Z)) (u v : list Z).

Lemma zip_with_right_comm {A B} (g : A -> B -> A) :
  (forall x y z, g (g x y) z = g (g x z) y) ->
  forall (l : list A) (k1 k2 : list B),
    zip_with g (zip_with g l k1) k2 = zip_with g (zip_with g l k2) k1.
Proof.
  intros Hg. induction l as [|x l IH]; intros [|y k1] [|z k2]; simpl; try reflexivity.
  rewrite Hg, IH. reflexivity.
Qed.

Lemma zip_with_fmap_swap {A B} (f : A -> B) (g : B -> A -> B) :
  (forall x y, g (f x) y = g (f y) x) ->
  forall k1 k2 : list A, zip_with g (f <$> k1) k2 = zip_with g (f <$> k2) k1.
Proof.
  intros Hg. induction k1 as [|x k1 IH]; intros [|y k2]; simpl; try reflexivity.
  rewrite Hg, IH. reflexivity.
Qed.

Lemma uint32_add_idemp x y : Numpy.uint32 (Numpy.uint32 x + y) = Numpy.uint32 (x + y).
Proof. unfold Numpy.uint32. apply Zplus_mod_idemp_l. Qed.

Lemma uint32_add_right_comm x y z :
  Numpy.uint32 (Numpy.uint32 (x + y) + z) = Numpy.uint32 (Numpy.uint32 (x + z) + y).
Proof. rewrite !uint32_add_idemp. f_equal. lia. Qed.

Lemma add_right_comm a m1 m2 :
  Numpy.add (Numpy.add a m1) m2 = Numpy.add (Numpy.add a m2) m1.
Proof.
  unfold Numpy.add. apply zip_with_right_comm. intros u v w.
  apply zip_with_right_comm. intros x y z. apply uint32_add_right_comm.
Qed.

Lemma scalar_add_swap n m1 m2 :
  Numpy.add (Numpy.scalar_add n m1) m2 = Numpy.add (Numpy.scalar_add n m2) m1.
Proof.
  unfold Numpy.add, Numpy.scalar_add. rewrite !map_is_fmap.
  apply zip_with_fmap_swap. intros u v. rewrite !map_is_fmap.
  apply zip_with_fmap_swap. intros x y. apply uint32_add_right_comm.
Qed.

Lemma py_add_right_comm acc m1 m2 :
  py_add (py_add acc m1) m2 = py_add (py_add acc m2) m1.
Proof.
  destruct acc as [n|a]; simpl; f_equal; [apply scalar_add_swap | apply add_right_comm].
Qed.

(** A left fold whose steps commute does not depend on the order of
    the list. *)
Lemma foldl_permutation {A B} (f : A -> B -> A) (l l' : list B) :
  (forall acc x y, f (f acc x) y = f (f acc y) x) ->
  l ≡ₚ l' -> forall acc, foldl f acc l = foldl f acc l'.
Proof.
  intros Hf Hperm. induction Hperm as [|x l l' _ IH|x y l|l l' l'' _ IH1 _ IH2];
    intros acc; simpl.
  - reflexivity.
  - apply IH.
  - rewrite Hf. reflexivity.
  - rewrite IH1. apply IH2.
Qed.

Lemma py_sum_permutation (results results' : list (list (list Z))) :
  results ≡ₚ results' -> py_sum results = py_sum results'.
Proof.
  intros Hperm. unfold py_sum. apply foldl_permutation; [|exact Hperm].
  apply py_add_right_comm.
Qed.

End Reduction.

(** ** Order of iteration *)

Section Order.

Implicit Types (t : list (list Z)) (opts : Options).

Lemma for_each_app {A B} (body : B -> A -> option B) (l k : list A) : forall acc,
  for_each body acc (l ++ k) = (acc' ← for_each body acc l; for_each body acc' k).
Proof.
  induction l as [|x l IH]; intros acc; simpl; [reflexivity|].
  destruct (body acc x) as [acc'|]; simpl; [apply IH | reflexivity].
Qed.

Lemma for_each_fmap {A B C} (body : B -> A -> option B) (f : C -> A) (l : list C) :
  forall acc, for_each body acc (f <$> l) = for_each (fun b c => body b (f c)) acc l.
Proof.
  induction l as [|x l IH]; intros acc; simpl; [reflexivity|].
  destruct (body acc (f x)) as [acc'|]; simpl; [apply IH | reflexivity].
Qed.

(** A loop whose iterations commute does not depend on the order in
    which it visits its items. *)
Lemma for_each_permutation {A B} (body : B -> A -> option B) (l l' : list A) :
  (forall acc x y, (b ← body acc x; body b y) = (b ← body acc y; body b x)) ->
  l ≡ₚ l' -> forall acc, for_each body acc l = for_each body acc l'.
Proof.
  intros Hbody Hperm. induction Hperm as [|x l l' _ IH|x y l|l l' l'' _ IH1 _ IH2];
    intros acc; simpl.
  - reflexivity.
  - destruct (body acc x) as [b|]; simpl; [apply IH | reflexivity].
  - pose proof (Hbody acc x y) as Hxy.
    destruct (body acc x) as [bx|], (body acc y) as [by'|]; simpl in *.
    + destruct (body by' x) as [b1|], (body bx y) as [b2|]; simpl; congruence.
    + destruct (body bx y); [discriminate | reflexivity].
    + destruct (body by' x); [discriminate | reflexivity].
    + reflexivity.
  - rewrite IH1. apply IH2.
Qed.

Lemma bump_comm r c r' c' t : bump r c (bump r' c' t) = bump r' c' (bump r c t).
Proof.
  apply list_eq. intros i. rewrite !lookup_bump.
  destruct (t !! i) as [row|]; simpl; [|reflexivity]. f_equal.
  apply list_eq. intros j. rewrite !list_lookup_imap.
  destruct (row !! j) as [x|]; simpl; [|reflexivity]. f_equal.
  destruct (decide (i = r /\ j = c)), (decide (i = r' /\ j = c')); reflexivity.
Qed.

Lemma addressed_bump r c t i j : addressed (bump r c t) i j = addressed t i j.
Proof.
  unfold addressed. rewrite length_bump.
  destruct (Numpy.index (length t) i) as [r0|]; simpl; [|reflexivity].
  rewrite lookup_bump. destruct (t !! r0) as [row|]; simpl; [|reflexivity].
  rewrite length_imap. reflexivity.
Qed.

Lemma iadd1_comm t i j i' j' :
  (t1 ← Numpy.iadd1 t i j; Numpy.iadd1 t1 i' j')
  = (t1 ← Numpy.iadd1 t i' j'; Numpy.iadd1 t1 i j).
Proof.
  rewrite (iadd1_addressed t i j), (iadd1_addressed t i' j').
  destruct (addressed t i j) as [[r c]|] eqn:H1, (addressed t i' j') as [[r' c']|] eqn:H2;
    simpl; rewrite ?iadd1_addressed, ?addressed_bump, ?H1, ?H2; simpl;
    try reflexivity.
  f_equal. apply bump_comm.
Qed.

Lemma tally_read_comm opts t (x y : Z * AlignedRead) :
  (t1 ← tally_read opts x.1 t x.2; tally_read opts y.1 t1 y.2)
  = (t1 ← tally_read opts y.1 t y.2; tally_read opts x.1 t1 x.2).
Proof.
  rewrite (tally_read_target opts x.1 t), (tally_read_target opts y.1 t).
  destruct (tally_target opts x.1 x.2) as [[i j]|] eqn:Hx,
           (tally_target opts y.1 y.2) as [[i' j']|] eqn:Hy; simpl.
  - pose proof (iadd1_comm t i j i' j') as Hc.
    destruct (Numpy.iadd1 t i j) as [t1|], (Numpy.iadd1 t i' j') as [t2|]; simpl in *;
      rewrite ?tally_read_target, ?Hx, ?Hy; simpl; try exact Hc; reflexivity.
  - rewrite (tally_read_target opts x.1 t), Hx. simpl.
    destruct (Numpy.iadd1 t i j) as [t1|]; simpl; [|reflexivity].
    rewrite tally_read_target, Hy. reflexivity.
  - rewrite (tally_read_target opts y.1 t), Hy. simpl.
    destruct (Numpy.iadd1 t i' j') as [t1|]; simpl; [|reflexivity].
    rewrite tally_read_target, Hx. reflexivity.
  - rewrite !tally_read_target, Hx, Hy. reflexivity.
Qed.

End Order.

(** ** Work units and the pool *)

Section Units.

Implicit Types (opts : Options) (inbams : list Samfile).

Lemma nested_loops_visits opts inbams (k : string * string) (gcoords : list Z) :
  forall acc,
    for_each (fun tallies gcoord =>
                for_each (tally_read opts gcoord) tallies (get_reads inbams k.1 k.2 gcoord))
             acc gcoords
    = for_each (fun tallies (gr : Z * AlignedRead) => tally_read opts gr.1 tallies gr.2)
               acc (visits inbams k gcoords).
Proof.
  induction gcoords as [|g gcoords IH]; intros acc; [reflexivity|].
  unfold visits. rewrite bind_cons, for_each_app, for_each_fmap. simpl.
  destruct (for_each (tally_read opts g) acc (get_reads inbams k.1 k.2 g)) as [acc'|];
    simpl; [apply IH | reflexivity].
Qed.

(** A work unit gives the same matrix under any iteration order of its
    set of start codons. *)
Lemma map_start_sites_order opts inbams (d : gmap (string * string) (gset Z))
    (iter1 iter2 : gset Z -> list Z) (k : string * string) :
  set_order iter1 -> set_order iter2 ->
  map_start_sites opts inbams d iter1 k = map_start_sites opts inbams d iter2 k.
Proof.
  intros H1 H2. unfold map_start_sites.
  destruct (Numpy.zeros _ _) as [t0|]; simpl; [|reflexivity].
  rewrite !nested_loops_visits. apply for_each_permutation.
  - intros acc x y. apply tally_read_comm.
  - unfold visits. apply bind_Permutation.
    etransitivity; [apply H1 | symmetry; apply H2].
Qed.

Lemma for_each_None {A B} (body : B -> A -> option B) (x : A) (l : list A) :
  x ∈ l -> (forall acc, body acc x = None) -> forall acc, for_each body acc l = None.
Proof.
  intros Hin Hx. induction l as [|y l IH]; intros acc; [inversion Hin|]. simpl.
  apply elem_of_cons in Hin as [<-|Hin].
  - rewrite Hx. reflexivity.
  - destruct (body acc y) as [acc'|]; simpl; [apply IH, Hin | reflexivity].
Qed.

Lemma chunksize_pos nworkers len : (0 < len)%nat -> (0 < Pool.chunksize nworkers len)%nat.
Proof.
  intros Hlen. unfold Pool.chunksize.
  destruct (Nat.eqb_spec len 0); [lia|].
  destruct (Nat.eqb_spec (len mod (nworkers * 4)) 0) as [Hmod|Hmod]; [|lia].
  destruct (Nat.eq_dec (nworkers * 4)%nat 0%nat) as [Hz|Hnz].
  - rewrite Hz in Hmod. simpl in Hmod. lia.
  - apply Nat.Div0.div_exact in Hmod.
    destruct (len / (nworkers * 4))%nat; lia.
Qed.

Lemma get_tasks_lookup {A} (size : nat) : forall (fuel : nat) (it : list A) i c,
  Pool.get_tasks fuel size it !! i = Some c ->
  c = take size (drop (i * size) it) /\ (i * size < length it)%nat.
Proof.
  induction fuel as [|fuel IH]; intros it i c; simpl; [discriminate|].
  destruct (take size it) as [|x chunk] eqn:Htake; [discriminate|].
  destruct i as [|i]; simpl.
  - intros [= <-]. split; [symmetry; exact Htake|].
    destruct it; [rewrite take_nil in Htake; discriminate | simpl; lia].
  - intros Hc. destruct (IH _ _ _ Hc) as [-> Hlt]. rewrite drop_drop. split; [reflexivity|].
    rewrite length_drop in Hlt. lia.
Qed.

Lemma get_tasks_lookup_is_Some {A} (size : nat) : forall (fuel : nat) (it : list A) i,
  (0 < size)%nat -> (length it <= fuel)%nat -> (i * size < length it)%nat ->
  is_Some (Pool.get_tasks fuel size it !! i).
Proof.
  induction fuel as [|fuel IH]; intros it i Hsize Hfuel Hi; [lia|]. simpl.
  destruct it as [|x it]; [simpl in Hi; lia|].
  destruct size as [|size]; [lia|].
  change (take (S size) (x :: it)) with (x :: take size it). cbv iota.
  destruct i as [|i]; simpl; [eauto|].
  apply (IH (drop size it) i); [lia | | ].
  - rewrite length_drop. simpl in Hfuel. lia.
  - rewrite length_drop. simpl in Hi. lia.
Qed.

Lemma lookup_enumerate_from {A} (l : list A) : forall s j,
  enumerate_from s l !! j = (fun x => ((s + j)%nat, x)) <$> l !! j.
Proof.
  induction l as [|x l IH]; intros s j; [reflexivity|].
  destruct j as [|j]; simpl.
  - rewrite Nat.add_0_r. reflexivity.
  - rewrite IH. replace (S s + j)%nat with (s + S j)%nat by lia. reflexivity.
Qed.

Lemma elem_of_enumerate {A} (l : list A) i x : (i, x) ∈ enumerate l <-> l !! i = Some x.
Proof.
  unfold enumerate. rewrite list_elem_of_lookup. split.
  - intros [j Hj]. rewrite lookup_enumerate_from in Hj.
    destruct (l !! j) as [y|] eqn:Hy; simpl in Hj; [|discriminate].
    injection Hj as <- <-. exact Hy.
  - intros Hi. exists i. rewrite lookup_enumerate_from, Hi. reflexivity.
Qed.

(** Position [p] belongs to the task numbered [p / size]. *)
Lemma task_of_position size p i :
  (0 < size)%nat -> (p / size)%nat = i <-> (i * size <= p < (i + 1) * size)%nat.
Proof.
  intros Hsize. pose proof (Nat.div_mod_eq p size) as Hdiv.
  pose proof (Nat.mod_upper_bound p size ltac:(lia)) as Hmod.
  split; [intros <-; nia | intros [Hlo Hhi]].
  assert (Hle : (i <= p / size)%nat) by (apply Nat.div_le_lower_bound; lia).
  assert (Hlt : (p / size < i + 1)%nat) by (apply Nat.Div0.div_lt_upper_bound; lia).
  lia.
Qed.

Lemma length_set_slice {C} (value : list C) lo hi result :
  (lo + length result = hi `min` length value)%nat ->
  length (Pool.set_slice value lo hi result) = length value.
Proof.
  intros Hlen. unfold Pool.set_slice. rewrite !length_app, length_take, length_drop. lia.
Qed.

Lemma lookup_set_slice {C} (value : list C) lo hi result p :
  (lo + length result = hi `min` length value)%nat -> (p < length value)%nat ->
  Pool.set_slice value lo hi result !! p
  = if decide (lo <= p < lo + length result)%nat then result !! (p - lo)%nat else value !! p.
Proof.
  intros Hlen Hp. unfold Pool.set_slice.
  destruct (decide (p < lo)%nat) as [Hlt|Hge].
  - rewrite lookup_app_l by (rewrite length_take; lia).
    rewrite lookup_take_lt by assumption. rewrite decide_False by lia. reflexivity.
  - rewrite lookup_app_r by (rewrite length_take; lia).
    rewrite length_take. replace (lo `min` length value)%nat with lo by lia.
    destruct (decide (p - lo < length result)%nat) as [Hin|Hout].
    + rewrite lookup_app_l by assumption. rewrite decide_True by lia. reflexivity.
    + rewrite lookup_app_r by lia. rewrite lookup_drop, decide_False by lia.
      f_equal. lia.
Qed.

Section PoolMap.

Context {A B : Type} (func : A -> option B) (size : nat) (l : list A) (ys : list B).
Hypothesis size_pos : (0 < size)%nat.
Hypothesis results : mapM func l = Some ys.

Lemma results_length : length ys = length l.
Proof. symmetry. eapply Forall2_length, mapM_Some, results. Qed.

Lemma chunk_results lo :
  mapM func (take size (drop lo l)) = Some (take size (drop lo ys)).
Proof. apply mapM_Some, Forall2_take, Forall2_drop, mapM_Some, results. Qed.

Lemma slots_filled_start : slots_filled size ys [] (replicate (length l) None).
Proof.
  split; [rewrite length_replicate; symmetry; apply results_length|].
  intros p Hp. rewrite results_length in Hp. rewrite lookup_replicate_2 by assumption.
  rewrite decide_False by (apply not_elem_of_nil). reflexivity.
Qed.

Lemma slots_filled_step done value i :
  slots_filled size ys done value -> (i * size < length ys)%nat ->
  slots_filled size ys (i :: done)
    (Pool.set_slice value (i * size) ((i + 1) * size) (Some <$> take size (drop (i * size) ys))).
Proof.
  intros [Hlen Hslots] Hi.
  assert (Hres : (i * size + length (Some <$> take size (drop (i * size) ys))
                  = ((i + 1) * size) `min` length value)%nat).
  { rewrite length_fmap, length_take, length_drop. lia. }
  split; [rewrite length_set_slice by exact Hres; exact Hlen|].
  intros p Hp. rewrite lookup_set_slice by (exact Hres || lia).
  rewrite length_fmap, length_take, length_drop in *.
  destruct (decide (i * size <= p < i * size + size `min` (length ys - i * size))%nat)
    as [Hin|Hout].
  - rewrite decide_True by (apply elem_of_cons; left; apply task_of_position; lia).
    rewrite list_lookup_fmap, lookup_take_lt, lookup_drop by lia.
    replace (i * size + (p - i * size))%nat with p by lia.
    destruct (lookup_lt_is_Some_2 ys p Hp) as [y ->]. reflexivity.
  - rewrite (Hslots p Hp). f_equal.
    assert (Hne : (p / size)%nat <> i) by (intros Heq; apply task_of_position in Heq; lia).
    destruct (decide ((p / size)%nat ∈ done)) as [Hd|Hd].
    + rewrite decide_True by (right; exact Hd). reflexivity.
    + rewrite decide_False; [reflexivity|]. intros [Heq|Hd']%elem_of_cons; auto.
Qed.

Lemma slots_filled_tasks (todo : list (nat * list A)) : forall done value,
  slots_filled size ys done value ->
  (forall i c, (i, c) ∈ todo -> Pool.get_tasks (length l) size l !! i = Some c) ->
  exists value',
    for_each (fun value (task : nat * list A) =>
                result ← mapM func task.2;
                Some (Pool.set_slice value (task.1 * size) ((task.1 + 1) * size)
                        (Some <$> result)))
             value todo = Some value'
    /\ slots_filled size ys (reverse todo.*1 ++ done) value'.
Proof.
  induction todo as [|[i c] todo IH]; intros done value Hfilled Htodo; simpl.
  - exists value. auto.
  - destruct (get_tasks_lookup size _ _ _ _ (Htodo i c ltac:(left))) as [-> Hi].
    rewrite chunk_results. simpl. rewrite <- results_length in Hi.
    destruct (IH (i :: done) _ (slots_filled_step _ _ _ Hfilled Hi)) as (value' & Hv & Hf).
    { intros j c' Hin. apply Htodo. right. exact Hin. }
    exists value'. split; [exact Hv|].
    rewrite reverse_cons, <- app_assoc. exact Hf.
Qed.

Lemma slots_all_filled done value :
  slots_filled size ys done value ->
  (forall p, (p < length ys)%nat -> (p / size)%nat ∈ done) ->
  value = Some <$> ys.
Proof.
  intros [Hlen Hslots] Hall. apply list_eq. intros p.
  destruct (decide (p < length ys)%nat) as [Hp|Hp].
  - rewrite (Hslots p Hp), decide_True by (apply Hall, Hp).
    rewrite list_lookup_fmap. destruct (lookup_lt_is_Some_2 ys p Hp) as [y ->]. reflexivity.
  - rewrite !lookup_ge_None_2; [reflexivity | rewrite length_fmap; lia | lia].
Qed.

End PoolMap.

(** Whatever the number of workers and the order in which the tasks
    complete, the pool's map lists the results in the order of its
    input. *)
Lemma pool_map_mapM {A B} (nworkers : nat) (sched : list (nat * list A) -> list (nat * list A))
    (func : A -> option B) (iterable : list A) :
  task_order sched ->
  Pool.map nworkers sched func iterable = mapM func iterable.
Proof.
  intros Hsched. unfold Pool.map.
  destruct iterable as [|x0 rest] eqn:Hit.
  { simpl. pose proof (Hsched []) as Hnil. apply Permutation_nil_r in Hnil.
    change (enumerate []) with (@nil (nat * list A)). rewrite Hnil. reflexivity. }
  rewrite <- Hit. set (size := Pool.chunksize nworkers (length iterable)).
  set (tasks := enumerate (Pool.get_tasks (length iterable) size iterable)).
  assert (Hsize : (0 < size)%nat) by (apply chunksize_pos; rewrite Hit; simpl; lia).
  assert (Htask : forall p, (p < length iterable)%nat ->
            exists c, ((p / size)%nat, c) ∈ sched tasks
              /\ c = take size (drop (p / size * size) iterable)).
  { intros p Hp.
    destruct (get_tasks_lookup_is_Some size (length iterable) iterable (p / size))
      as [c Hc]; [exact Hsize | lia | |].
    - pose proof (proj1 (task_of_position size p _ Hsize) eq_refl). lia.
    - exists c. split.
      + rewrite (Hsched tasks). apply elem_of_enumerate, Hc.
      + apply (get_tasks_lookup size _ _ _ _ Hc). }
  destruct (mapM func iterable) as [ys|] eqn:Hys.
  - destruct (slots_filled_tasks func size iterable ys Hsize Hys (sched tasks) []
                (replicate (length iterable) None)) as (value & -> & Hfilled).
    + apply (slots_filled_start func). exact Hys.
    + intros i c Hin. rewrite (Hsched tasks) in Hin. apply elem_of_enumerate, Hin.
    + simpl. rewrite (slots_all_filled size ys Hsize _ value Hfilled).
      * apply mapM_fmap_Some. reflexivity.
      * intros p Hp. rewrite (results_length func iterable ys Hys) in Hp.
        destruct (Htask p Hp) as (c & Hin & _).
        rewrite app_nil_r. apply elem_of_reverse.
        apply (list_elem_of_fmap_2 fst) in Hin. exact Hin.
  - apply mapM_None, Exists_exists in Hys as (x & Hx & Hnone).
    apply list_elem_of_lookup in Hx as [p Hp]. apply lookup_lt_Some in Hp as Hlt.
    destruct (Htask p Hlt) as (c & Hin & ->).
    rewrite (for_each_None _ _ _ Hin); [reflexivity|].
    intros acc. simpl. rewrite (proj2 (mapM_None _ _)); [reflexivity|].
    apply Exists_exists. exists x. split; [|exact Hnone].
    pose proof (proj1 (task_of_position size p _ Hsize) eq_refl) as Hpos.
    apply (list_elem_of_lookup_2 _ (p - p / size * size)%nat).
    rewrite lookup_take_lt, lookup_drop by lia.
    replace (p / size * size + (p - p / size * size))%nat with p by lia. exact Hp.
Qed.

Lemma mapM_permutation {A B} (f : A -> option B) (l l' : list A) :
  l ≡ₚ l' -> forall r, mapM f l = Some r -> exists r', mapM f l' = Some r' /\ r ≡ₚ r'.
Proof.
  induction 1 as [|x l l' _ IH|x y l|l l' l'' _ IH1 _ IH2]; intros r Hr; simpl in *.
  - exists r. split; [exact Hr | reflexivity].
  - destruct (f x) as [fx|]; simpl in *; [|discriminate].
    destruct (mapM f l) as [rl|]; simpl in *; [|discriminate]. injection Hr as <-.
    destruct (IH _ eq_refl) as (r' & -> & Hperm). simpl.
    exists (fx :: r'). split; [reflexivity | constructor; exact Hperm].
  - destruct (f y) as [fy|]; simpl in *; [|discriminate].
    destruct (f x) as [fx|]; simpl in *; [|discriminate].
    destruct (mapM f l) as [rl|]; simpl in *; [|discriminate]. injection Hr as <-.
    exists (fx :: fy :: rl). split; [reflexivity | apply perm_swap].
  - destruct (IH1 _ Hr) as (r1 & Hr1 & Hp1). destruct (IH2 _ Hr1) as (r2 & Hr2 & Hp2).
    exists r2. split; [exact Hr2 | etransitivity; eassumption].
Qed.

Lemma sum_of_map_permutation {A} (f : A -> option (list (list Z))) (l l' : list A) :
  l ≡ₚ l' -> py_sum <$> mapM f l = py_sum <$> mapM f l'.
Proof.
  intros Hperm. destruct (mapM f l) as [r|] eqn:Hl.
  - destruct (mapM_permutation f l l' Hperm r Hl) as (r' & -> & Hr). simpl. f_equal.
    apply py_sum_permutation, Hr.
  - destruct (mapM f l') as [r'|] eqn:Hl'; [|reflexivity].
    symmetry in Hperm. destruct (mapM_permutation f l' l Hperm r' Hl') as (r & Hr & _).
    congruence.
Qed.

(** Lines 83-85 do not depend on the number of workers (at least one),
    on the order in which sets are iterated, on the order of the
    dictionary's keys, or on the order in which the tasks complete. *)
Lemma reduce_tallies_order opts inbams (d : gmap (string * string) (gset Z))
    (n1 n2 : Z) (ord1 ord2 : Order) :
  1 <= n1 -> 1 <= n2 -> admissible ord1 -> admissible ord2 ->
  reduce_tallies (with_numproc n1 opts) inbams d ord1
  = reduce_tallies (with_numproc n2 opts) inbams d ord2.
Proof.
  intros Hn1 Hn2 (Hi1 & Hk1 & Hs1) (Hi2 & Hk2 & Hs2).
  unfold reduce_tallies, Pool.create. simpl.
  destruct (Z.ltb_spec n1 1); [lia|]. destruct (Z.ltb_spec n2 1); [lia|]. simpl.
  rewrite !pool_map_mapM by assumption.
  rewrite (mapM_ext _ (map_start_sites (with_numproc n2 opts) inbams d (iter ord2)))
    by (intros k; apply (map_start_sites_order (with_numproc n1 opts)); assumption).
  assert (Hkeys : keys ord1 d ≡ₚ keys ord2 d)
    by (etransitivity; [apply Hk1 | symmetry; apply Hk2]).
  pose proof (sum_of_map_permutation
                (map_start_sites (with_numproc n2 opts) inbams d (iter ord2)) _ _ Hkeys)
    as Hsum.
  destruct (mapM _ (keys ord1 d)) as [r1|], (mapM _ (keys ord2 d)) as [r2|];
    simpl in *; congruence.
Qed.

End Units.

(** ** The shape of the tally matrices *)

Section Shape.

Implicit Types (opts : Options) (inbams : list Samfile) (t a m : list (list Z)).

Lemma zeros_shape opts t :
  Numpy.zeros (maxrdlen opts + 1 - minrdlen opts) (maxrdlen opts) = Some t ->
  tally_shape opts t.
Proof.
  unfold Numpy.zeros.
  destruct (Z.ltb_spec (maxrdlen opts + 1 - minrdlen opts) 0),
           (Z.ltb_spec (maxrdlen opts) 0); simpl; try discriminate.
  intros [= <-]. split; [assumption|]. split.
  - rewrite length_replicate. lia.
  - apply Forall_replicate. rewrite length_replicate. lia.
Qed.

Lemma tally_read_shape opts gcoord t read t' :
  tally_shape opts t -> tally_read opts gcoord t read = Some t' -> tally_shape opts t'.
Proof.
  intros Hshape. rewrite tally_read_target.
  destruct (tally_target opts gcoord read) as [[i j]|]; [|intros [= <-]; exact Hshape].
  simpl. rewrite iadd1_addressed.
  destruct (addressed t i j) as [[r c]|]; simpl; [|discriminate].
  intros [= <-]. apply tally_shape_bump, Hshape.
Qed.

Lemma for_each_invariant {A B} (P : B -> Prop) (body : B -> A -> option B) :
  (forall acc x acc', P acc -> body acc x = Some acc' -> P acc') ->
  forall l acc acc', P acc -> for_each body acc l = Some acc' -> P acc'.
Proof.
  intros Hbody. induction l as [|x l IH]; intros acc acc' Hacc; simpl.
  - intros [= <-]. exact Hacc.
  - destruct (body acc x) as [b|] eqn:Hb; simpl; [|discriminate].
    apply IH. eapply Hbody; eassumption.
Qed.

Lemma map_start_sites_shape opts inbams (d : gmap (string * string) (gset Z))
    (set_iter : gset Z -> list Z) k t :
  map_start_sites opts inbams d set_iter k = Some t -> tally_shape opts t.
Proof.
  unfold map_start_sites.
  destruct (Numpy.zeros _ _) as [t0|] eqn:Hz; simpl; [|discriminate].
  apply (for_each_invariant (tally_shape opts)); [|apply zeros_shape, Hz].
  intros acc g acc' Hacc. apply (for_each_invariant (tally_shape opts)); [|exact Hacc].
  intros acc1 read acc2. apply tally_read_shape.
Qed.

Lemma index_nonneg n i r : 0 <= i -> Numpy.index n i = Some r -> r = Z.to_nat i.
Proof.
  intros Hi. unfold Numpy.index.
  destruct (Z.leb_spec 0 i); [|lia]. destruct (Z.ltb_spec i (Z.of_nat n)); simpl.
  - intros [= <-]. reflexivity.
  - destruct (Z.ltb_spec i 0); [lia|]. rewrite andb_false_r. discriminate.
Qed.

Lemma tally_target_nonneg opts gcoord read i j :
  tally_target opts gcoord read = Some (i, j) -> 0 <= i /\ 0 <= j.
Proof.
  intros Htgt. apply tally_target_filters in Htgt as (off & (Hlen & _ & _ & Hge) & -> & ->).
  lia.
Qed.

Lemma hits_cons opts (i j : nat) g read (vs : list (Z * AlignedRead)) :
  hits opts i j ((g, read) :: vs)
  = if decide (tally_target opts g read = Some (Z.of_nat i, Z.of_nat j))
    then S (hits opts i j vs) else hits opts i j vs.
Proof.
  unfold hits. rewrite filter_cons. simpl.
  destruct (decide (tally_target opts g read = Some (Z.of_nat i, Z.of_nat j))); reflexivity.
Qed.

Lemma addressed_nonneg t i j r c :
  0 <= i -> 0 <= j -> addressed t i j = Some (r, c) -> r = Z.to_nat i /\ c = Z.to_nat j.
Proof.
  intros Hi Hj. unfold addressed.
  destruct (Numpy.index (length t) i) as [r'|] eqn:Hr; simpl; [|discriminate].
  destruct (t !! r') as [row|]; simpl; [|discriminate].
  destruct (Numpy.index (length row) j) as [c'|] eqn:Hc; simpl; [|discriminate].
  intros [= <- <-]. split; eapply index_nonneg; eassumption.
Qed.

Lemma tally_visits_count opts (i j : nat) (vs : list (Z * AlignedRead)) : forall acc t c,
  for_each (fun tallies (gr : Z * AlignedRead) => tally_read opts gr.1 tallies gr.2) acc vs
  = Some t ->
  get_cell acc i j = Some (Numpy.uint32 c) ->
  get_cell t i j = Some (Numpy.uint32 (c + Z.of_nat (hits opts i j vs))).
Proof.
  induction vs as [|[g read] vs IH]; intros acc t c.
  - simpl. intros [= <-] Hc. unfold hits. simpl. rewrite Z.add_0_r. exact Hc.
  - rewrite hits_cons. simpl. rewrite tally_read_target.
    destruct (decide (tally_target opts g read = Some (Z.of_nat i, Z.of_nat j)))
      as [Hhit|Hmiss].
    + rewrite Hhit. simpl. rewrite iadd1_addressed.
      destruct (addressed acc (Z.of_nat i) (Z.of_nat j)) as [[r c0]|] eqn:Haddr; simpl;
        [|discriminate].
      apply addressed_nonneg in Haddr as [-> ->]; [|lia|lia]. rewrite !Nat2Z.id.
      intros Ht Hc. rewrite (IH _ _ (c + 1) Ht).
      * do 2 f_equal. lia.
      * rewrite get_cell_bump, Hc. simpl. rewrite decide_True by auto.
        f_equal. apply Zplus_mod_idemp_l.
    + destruct (tally_target opts g read) as [[i0 j0]|] eqn:Htgt; simpl.
      * rewrite iadd1_addressed.
        destruct (addressed acc i0 j0) as [[r c0]|] eqn:Haddr; simpl; [|discriminate].
        destruct (tally_target_nonneg _ _ _ _ _ Htgt) as [Hi0 Hj0].
        apply addressed_nonneg in Haddr as [-> ->]; [|lia|lia].
        intros Ht Hc. apply (IH _ _ c Ht). rewrite get_cell_bump, Hc. simpl.
        rewrite decide_False; [reflexivity|].
        intros [-> ->]. apply Hmiss. rewrite !Z2Nat.id by assumption. reflexivity.
      * intros Ht Hc. apply (IH _ _ c Ht Hc).
Qed.

(** A work unit counts, in every cell, the reads its loops tally there
    (modulo [2^32]). *)
Lemma map_start_sites_counts opts inbams (d : gmap (string * string) (gset Z))
    (set_iter : gset Z -> list Z) k t (i j : nat) :
  map_start_sites opts inbams d set_iter k = Some t ->
  Z.of_nat i < maxrdlen opts + 1 - minrdlen opts -> Z.of_nat j < maxrdlen opts ->
  get_cell t i j
  = Some (Numpy.uint32
            (Z.of_nat (hits opts i j (visits inbams k (set_iter (lookup_default d k)))))).
Proof.
  unfold map_start_sites.
  destruct (Numpy.zeros _ _) as [t0|] eqn:Hz; simpl; [|discriminate].
  rewrite nested_loops_visits. intros Ht Hi Hj.
  apply (tally_visits_count opts i j _ t0 t 0 Ht).
  unfold Numpy.zeros in Hz.
  destruct (_ || _); [discriminate|]. injection Hz as <-.
  unfold get_cell. rewrite lookup_replicate_2 by lia. simpl.
  rewrite lookup_replicate_2 by lia. reflexivity.
Qed.

Lemma add_shape opts a m :
  tally_shape opts a -> tally_shape opts m -> tally_shape opts (Numpy.add a m).
Proof.
  intros (Hmax & Hra & Hca) (_ & Hrm & Hcm). unfold Numpy.add.
  split; [exact Hmax|]. split.
  - rewrite length_zip_with. lia.
  - apply Forall_lookup_2. intros i row Hi.
    apply lookup_zip_with_Some in Hi as (u & v & -> & Hu & Hv).
    pose proof (Forall_lookup_1 _ _ _ _ Hca Hu) as Hlu.
    pose proof (Forall_lookup_1 _ _ _ _ Hcm Hv) as Hlv. simpl in Hlu, Hlv.
    rewrite length_zip_with. lia.
Qed.

Lemma scalar_add_shape opts n m : tally_shape opts m -> tally_shape opts (Numpy.scalar_add n m).
Proof.
  intros (Hmax & Hrm & Hcm). unfold Numpy.scalar_add.
  split; [exact Hmax|]. split.
  - rewrite length_map. exact Hrm.
  - rewrite map_is_fmap. apply Forall_fmap. eapply Forall_impl; [exact Hcm|].
    intros row Hrow. simpl. rewrite length_map. exact Hrow.
Qed.

Lemma fold_ndarray_shape opts (units : list (list (list Z))) : forall a,
  tally_shape opts a -> Forall (tally_shape opts) units ->
  exists t, foldl py_add (NdArray a) units = NdArray t /\ tally_shape opts t.
Proof.
  induction units as [|u units IH]; intros a Ha Hunits; simpl.
  - exists a. auto.
  - apply Forall_cons in Hunits as [Hu Hunits]. apply IH; [|exact Hunits].
    apply add_shape; assumption.
Qed.

Lemma py_sum_shape opts (units : list (list (list Z))) :
  units <> [] -> Forall (tally_shape opts) units ->
  exists t, py_sum units = NdArray t /\ tally_shape opts t.
Proof.
  destruct units as [|u units]; [congruence|]. intros _ Hunits.
  apply Forall_cons in Hunits as [Hu Hunits]. unfold py_sum. simpl.
  apply fold_ndarray_shape; [apply scalar_add_shape, Hu | exact Hunits].
Qed.

Lemma get_cell_add a m i j x y :
  get_cell a i j = Some x -> get_cell m i j = Some y ->
  get_cell (Numpy.add a m) i j = Some (Numpy.uint32 (x + y)).
Proof.
  unfold get_cell, Numpy.add. rewrite lookup_zip_with.
  destruct (a !! i) as [u|]; simpl; [|discriminate].
  destruct (m !! i) as [v|]; simpl; [|discriminate].
  intros Hx Hy. rewrite lookup_zip_with, Hx, Hy. reflexivity.
Qed.

Lemma get_cell_scalar_add n m i j y :
  get_cell m i j = Some y ->
  get_cell (Numpy.scalar_add n m) i j = Some (Numpy.uint32 (n + y)).
Proof.
  unfold get_cell, Numpy.scalar_add. rewrite map_is_fmap, list_lookup_fmap.
  destruct (m !! i) as [v|]; simpl; [|discriminate].
  intros Hy. rewrite map_is_fmap, list_lookup_fmap, Hy. reflexivity.
Qed.

Lemma get_cell_in_shape opts t i j :
  tally_shape opts t ->
  Z.of_nat i < maxrdlen opts + 1 - minrdlen opts -> Z.of_nat j < maxrdlen opts ->
  is_Some (get_cell t i j).
Proof.
  intros (Hmax & Hrows & Hcols) Hi Hj. unfold get_cell.
  destruct (lookup_lt_is_Some_2 t i) as [row Hrow]; [lia|]. rewrite Hrow. simpl.
  pose proof (Forall_lookup_1 _ _ _ _ Hcols Hrow) as Hlen. simpl in Hlen.
  apply lookup_lt_is_Some_2. lia.
Qed.

Lemma fold_ndarray_cell opts (units : list (list (list Z))) i j : forall a x,
  Z.of_nat i < maxrdlen opts + 1 - minrdlen opts -> Z.of_nat j < maxrdlen opts ->
  Forall (tally_shape opts) units ->
  get_cell a i j = Some (Numpy.uint32 x) ->
  exists t, foldl py_add (NdArray a) units = NdArray t
    /\ get_cell t i j = Some (Numpy.uint32 (x + cell_total units i j)).
Proof.
  induction units as [|u units IH]; intros a x Hi Hj Hunits Hx; simpl.
  - exists a. split; [reflexivity|]. unfold cell_total. simpl.
    rewrite Z.add_0_r. exact Hx.
  - apply Forall_cons in Hunits as [Hu Hunits].
    destruct (get_cell_in_shape opts u i j Hu Hi Hj) as [y Hy].
    destruct (IH (Numpy.add a u) (x + y) Hi Hj Hunits) as (t & Ht & Hcell).
    + rewrite (get_cell_add _ _ _ _ _ _ Hx Hy). f_equal. apply uint32_add_idemp.
    + exists t. split; [exact Ht|]. rewrite Hcell. do 2 f_equal.
      unfold cell_total. simpl. rewrite Hy. simpl. lia.
Qed.

(** The reduction adds the unit matrices cell by cell, in uint32. *)
Lemma py_sum_cell opts (units : list (list (list Z))) i j :
  units <> [] -> Forall (tally_shape opts) units ->
  Z.of_nat i < maxrdlen opts + 1 - minrdlen opts -> Z.of_nat j < maxrdlen opts ->
  exists t, py_sum units = NdArray t
    /\ get_cell t i j = Some (Numpy.uint32 (cell_total units i j)).
Proof.
  destruct units as [|u units]; [congruence|]. intros _ Hunits Hi Hj.
  apply Forall_cons in Hunits as [Hu Hunits]. unfold py_sum. simpl.
  destruct (get_cell_in_shape opts u i j Hu Hi Hj) as [y Hy].
  destruct (fold_ndarray_cell opts units i j (Numpy.scalar_add 0 u) y Hi Hj Hunits)
    as (t & Ht & Hcell).
  - rewrite (get_cell_scalar_add _ _ _ _ _ Hy). reflexivity.
  - exists t. split; [exact Ht|]. rewrite Hcell. do 2 f_equal.
    unfold cell_total. simpl. rewrite Hy. reflexivity.
Qed.

(** The aggregate handed to the resolver has the run's shape. *)
Lemma reduce_tallies_shape opts inbams (d : gmap (string * string) (gset Z))
    (ord : Order) t :
  admissible ord ->
  reduce_tallies opts inbams d ord = Some t -> tally_shape opts t.
Proof.
  intros (_ & _ & Hsched).
  unfold reduce_tallies. destruct (Pool.create _) as [n|]; simpl; [|discriminate].
  rewrite pool_map_mapM by assumption.
  destruct (mapM _ (keys ord d)) as [results|] eqn:Hres; simpl; [|discriminate].
  assert (Hshapes : Forall (tally_shape opts) results).
  { apply mapM_Some in Hres. apply Forall_lookup_2. intros i r Hr.
    destruct (Forall2_lookup_r _ _ _ _ _ Hres Hr) as (k & _ & Hk).
    eapply map_start_sites_shape, Hk. }
  destruct results as [|r results]; [discriminate|].
  destruct (py_sum_shape opts (r :: results)) as (t' & -> & Ht'); [discriminate|exact Hshapes|].
  simpl. intros [= <-]. exact Ht'.
Qed.


End Shape.

(** C6: reducing a collection of per-unit tally matrices of one shape
    with [sum] gives the same aggregate, cell for cell, whatever the
    order in which the matrices are added; each of its cells is the
    uint32 sum of the units' cells. *)
Theorem reduction_order_irrelevant (opts : Options) (units units' : list (list (list Z))) :
  Forall (tally_shape opts) units ->
  units ≡ₚ units' ->
  py_sum units' = py_sum units
  /\ (units <> [] ->
      exists t, py_sum units' = NdArray t
        /\ tally_shape opts t
        /\ forall i j,
             Z.of_nat i < maxrdlen opts + 1 - minrdlen opts -> Z.of_nat j < maxrdlen opts ->
             get_cell t i j = Some (Numpy.uint32 (cell_total units i j))).
Proof.
  intros Hshape Hperm.
  assert (Heq : py_sum units' = py_sum units)
    by (symmetry; apply py_sum_permutation, Hperm).
  split; [exact Heq|]. intros Hne. rewrite Heq.
  destruct (py_sum_shape opts units Hne Hshape) as (t & Ht & Hts).
  exists t. split; [exact Ht|]. split; [exact Hts|]. intros i j Hi Hj.
  destruct (py_sum_cell opts units i j Hne Hshape Hi Hj) as (t' & Ht' & Hcell).
  rewrite Ht in Ht'. injection Ht' as <-. exact Hcell.
Qed.

Lemma reduction_order_irrelevant_witness :
  py_sum [sparse_tallies; twin_tallies; twin_tallies]
  = py_sum [twin_tallies; sparse_tallies; twin_tallies].
Proof.
  apply (reduction_order_irrelevant small_opts).
  - unfold tally_shape, twin_tallies, sparse_tallies. simpl.
    repeat constructor; simpl; lia.
  - apply perm_swap.
Defined.

(** ** The run *)

Section Run.

Implicit Types (opts : Options) (bams : list Samfile) (w : World).

Lemma close_loop bams : forall (s : nat) w,
  handles w = replicate s false ++ replicate (length bams) true ->
  script_for (fun ih : nat * Samfile => close_samfile ih.1) (enumerate_from s bams) w
  = (Some tt, {| handles := replicate (s + length bams) false; files := files w |}).
Proof.
  induction bams as [|b bams IH]; intros s w Hw; simpl.
  - unfold mret, script_ret. rewrite app_nil_r in Hw. rewrite Nat.add_0_r, <- Hw.
    destruct w; reflexivity.
  - unfold mbind, script_bind, close_samfile. simpl.
    rewrite IH; simpl.
    + rewrite Nat.add_succ_r. reflexivity.
    + rewrite Hw. simpl.
      rewrite insert_app_r_alt by (rewrite length_replicate; lia).
      rewrite length_replicate, Nat.sub_diag. simpl.
      rewrite (cons_middle false), app_assoc, <- replicate_S_end. reflexivity.
Qed.

(** The last phase either stops at the offsets, touching no handle, or
    runs through the closing loop. *)
Lemma write_and_close_handles opts bams (t : list (list Z)) w :
  handles w = replicate (length bams) true ->
  let r := write_and_close opts bams t w in
  (completed r = true /\ handles r.2 = replicate (length bams) false)
  \/ (completed r = false /\ handles r.2 = replicate (length bams) true).
Proof.
  intros Hw. unfold write_and_close, mbind, script_bind, eval.
  set (w1 := (match tallyfile opts with
              | Some path => write_file path (tally_text opts t)
              | None => mret tt
              end w)).
  assert (Hw1 : w1.1 = Some tt /\ handles w1.2 = replicate (length bams) true).
  { unfold w1. destruct (tallyfile opts); simpl; auto. }
  destruct w1 as [[[]|] w1']; simpl in Hw1; destruct Hw1 as [Hsome Hh]; [|discriminate].
  destruct (offsets opts t) as [offs|]; simpl.
  - left. unfold enumerate. rewrite (close_loop bams 0); simpl; [auto|exact Hh].
  - right. auto.
Qed.

Lemma main_handles opts bams cdsbed (ord : Order) :
  let r := main opts bams cdsbed ord start in
  (completed r = true /\ handles r.2 = replicate (length bams) false)
  \/ (completed r = false /\ handles r.2 = replicate (length bams) true).
Proof.
  unfold main, mbind, script_bind, open_samfiles, eval. simpl.
  destruct (reduce_tallies opts bams (build_gcoorddict cdsbed) ord) as [t|].
  - apply write_and_close_handles. reflexivity.
  - right. auto.
Qed.

End Run.

(** C7: two runs on the same alignment files and annotation lines that
    differ in the number of workers (at least one each), and in whatever
    the script leaves open -- the order in which the sets of start codons
    are iterated, the order in which the work units are listed and the
    order in which the pool's tasks complete -- end in the same state:
    the same files with the same contents, the offset table among them. *)
Theorem run_independent_of_workers_and_order (opts : Options) (n1 n2 : Z)
    (bams : list Samfile) (cdsbed : list BedLine) (ord1 ord2 : Order) :
  1 <= n1 -> 1 <= n2 -> admissible ord1 -> admissible ord2 ->
  main (with_numproc n1 opts) bams cdsbed ord1 start
  = main (with_numproc n2 opts) bams cdsbed ord2 start
  /\ files (main (with_numproc n1 opts) bams cdsbed ord1 start).2 !! offsetfile opts
     = files (main (with_numproc n2 opts) bams cdsbed ord2 start).2 !! offsetfile opts.
Proof.
  intros Hn1 Hn2 Hord1 Hord2.
  assert (Heq : main (with_numproc n1 opts) bams cdsbed ord1 start
                = main (with_numproc n2 opts) bams cdsbed ord2 start).
  { unfold main, mbind, script_bind, open_samfiles, eval. simpl.
    rewrite (reduce_tallies_order opts bams _ n1 n2 ord1 ord2) by assumption.
    destruct (reduce_tallies _ _ _ _); reflexivity. }
  split; [exact Heq | rewrite Heq; reflexivity].
Qed.

Lemma run_independent_of_workers_and_order_witness :
  main (with_numproc 1 default_opts) [one_read_bam] [cds_line] in_order start
  = main (with_numproc 4 default_opts) [one_read_bam] [cds_line] reversed start.
Proof.
  apply (run_independent_of_workers_and_order default_opts 1 4).
  - lia.
  - lia.
  - repeat split; intros x; reflexivity.
  - repeat split; intros x; apply reverse_Permutation.
Defined.

(** C8 (amended): a run that reaches the end of the script has closed
    every alignment file it opened at startup; a run that is ended by an
    exception raised before the outputs are written stops with every one
    of them still open, the closing loop not having been reached. *)
Theorem handles_closed_on_completion (opts : Options) (bams : list Samfile)
    (cdsbed : list BedLine) (ord : Order) :
  (completed (main opts bams cdsbed ord start) = true ->
   handles (main opts bams cdsbed ord start).2 = replicate (length bams) false)
  /\ (completed (main opts bams cdsbed ord start) = false ->
      handles (main opts bams cdsbed ord start).2 = replicate (length bams) true).
Proof.
  destruct (main_handles opts bams cdsbed ord) as [[Hc Hh]|[Hc Hh]];
    split; intros Hc'; congruence.
Qed.

Lemma handles_closed_on_completion_witness :
  handles (main default_opts [one_read_bam] [cds_line] in_order start).2 = [false].
Proof.
  apply (handles_closed_on_completion default_opts [one_read_bam] [cds_line] in_order).
  vm_compute. reflexivity.
Defined.

(** C8 as stated fails: with an empty annotation file the reduction of
    line 84 raises (the sum of no matrices is the int 0, which has no
    [astype]), the run ends there, and the alignment file opened at line
    30 has not been closed. *)
Lemma handle_left_open_on_failure :
  completed (main default_opts [one_read_bam] [] in_order start) = false
  /\ handles (main default_opts [one_read_bam] [] in_order start).2 = [true].
Proof. split; vm_compute; reflexivity. Qed.


(** * Further properties of the script *)

(** ** ReadFilter *)

Section ReadFilter.

Implicit Types (inbams : list Samfile) (rd : AlignedRead).

Lemma elem_of_fetched inbams (reference : string) (lo hi : Z) rd :
  rd ∈ concat (map (fun bamfile => fetch bamfile reference lo hi) inbams)
  <-> exists bam, bam ∈ inbams /\ rd ∈ fetch bam reference lo hi.
Proof.
  induction inbams as [|b inbams IH]; simpl.
  - split; [intros H; inversion H | intros (bam & H & _); inversion H].
  - rewrite elem_of_app, IH. split.
    + intros [H|(bam & Hin & H)]; [exists b; split; [left | exact H] |].
      exists bam. split; [right; exact Hin | exact H].
    + intros (bam & Hin & H). apply elem_of_cons in Hin as [->|Hin]; [left; exact H|].
      right. eauto.
Qed.

Lemma fetched_app inbams more (reference : string) (lo hi : Z) :
  concat (map (fun bamfile => fetch bamfile reference lo hi) (inbams ++ more))
  = concat (map (fun bamfile => fetch bamfile reference lo hi) inbams)
    ++ concat (map (fun bamfile => fetch bamfile reference lo hi) more).
Proof. rewrite map_app. apply concat_app. Qed.

End ReadFilter.

(** X1: the reads [get_reads] yields for a start codon are exactly the
    reads some alignment file returns for the one-base interval at the
    codon whose orientation matches the strand (forward for "+", reverse
    for any other strand); the files are read in the order given, one
    after the other; and the reads of the two strands together are the
    fetched reads, none lost and none on both strands. *)
Theorem read_filter_correct (inbams : list Samfile) (reference strand : string) (gcoord : Z) :
  (forall rd,
     rd ∈ get_reads inbams reference strand gcoord
     <-> (exists bam, bam ∈ inbams /\ rd ∈ fetch bam reference gcoord (gcoord + 1))
         /\ is_reverse rd = (if decide (strand = "+"%string) then false else true))
  /\ (forall more,
        get_reads (inbams ++ more) reference strand gcoord
        = get_reads inbams reference strand gcoord ++ get_reads more reference strand gcoord)
  /\ get_reads inbams reference "+" gcoord ++ get_reads inbams reference "-" gcoord
     ≡ₚ concat (map (fun bamfile => fetch bamfile reference gcoord (gcoord + 1)) inbams).
Proof.
  split; [|split].
  - intros rd. unfold get_reads.
    destruct (decide (strand = "+"%string)); rewrite list_elem_of_filter, elem_of_fetched; tauto.
  - intros more. unfold get_reads.
    destruct (decide (strand = "+"%string)); rewrite fetched_app; apply filter_app.
  - unfold get_reads. simpl.
    rewrite (list_filter_iff (fun rd => is_reverse rd = true)
                             (fun rd => ~ is_reverse rd = false)).
    + apply filter_app_complement.
    + intros rd. destruct (is_reverse rd); split; congruence.
Qed.

(** ** OffsetMapper, read from the 5' end *)

(** X2: the offset [offset_to_gcoord] returns indexes the coordinate in
    the read's positions taken from the 5' end (the positions as listed
    for a forward read, reversed for a reverse read).  When the coordinate
    occurs more than once the forward read gets the smallest such offset
    and the reverse read the largest. *)
Theorem offset_indexes_coordinate (read : AlignedRead) (gcoord k : Z) :
  offset_to_gcoord read gcoord = Some k ->
  0 <= k
  /\ (if is_reverse read then reverse (positions read) else positions read) !! Z.to_nat k
     = Some gcoord
  /\ (is_reverse read = false ->
      forall j, (j < Z.to_nat k)%nat -> positions read !! j <> Some gcoord)
  /\ (is_reverse read = true ->
      forall j, (Z.to_nat k < j)%nat -> reverse (positions read) !! j <> Some gcoord).
Proof.
  intros Hk. pose proof (offset_in_range _ _ _ Hk) as Hrange.
  destruct (decide (gcoord ∈ positions read)) as [Hin|Hout];
    [|rewrite offset_not_found in Hk by assumption; discriminate].
  destruct (first_index_exists _ _ Hin) as [i Hi].
  pose proof (first_index_lt _ _ _ Hi) as Hlt.
  rewrite (offset_of_first_index _ _ _ Hi) in Hk. destruct Hi as [Hi Hfirst].
  split; [lia|]. destruct (is_reverse read); injection Hk as <-.
  - split; [|split; [discriminate|]].
    + rewrite reverse_lookup by lia. rewrite <- Hi. f_equal. lia.
    + intros _ j Hj Hrev. destruct (decide (j < length (positions read))%nat) as [Hjl|Hjl].
      * rewrite reverse_lookup in Hrev by assumption.
        apply (Hfirst (length (positions read) - S j)%nat); [lia | exact Hrev].
      * apply lookup_lt_Some in Hrev. rewrite length_reverse in Hrev. lia.
  - split; [|split; [|discriminate]].
    + rewrite Nat2Z.id. exact Hi.
    + intros _ j Hj. apply Hfirst. lia.
Qed.

Lemma offset_indexes_coordinate_witness :
  reverse [7; 8; 9; 8] !! 2%nat = Some 8.
Proof.
  apply (offset_indexes_coordinate
           {| is_reverse := true; positions := [7; 8; 9; 8]; length_nmis := (4, 0) |} 8 2).
  reflexivity.
Defined.

(** ** AnnotationIndex: keys and input order *)

Section AnnotationKeys.

Implicit Types (d : gmap (string * string) (gset Z)) (ls : BedLine).

Lemma dom_add_bedline d ls k :
  k ∈ dom (add_bedline d ls)
  <-> k ∈ dom d \/ ((chrom ls, strand ls) = k /\ thickstart ls <> thickend ls).
Proof.
  unfold add_bedline.
  destruct (decide (thickstart ls <> thickend ls)) as [Hne|He]; [|tauto].
  destruct (decide (strand ls = "+"%string));
    rewrite dom_insert_L, elem_of_union, elem_of_singleton; split.
  - intros [->|H]; [right; split; [reflexivity | exact Hne] | left; exact H].
  - intros [H|[<- _]]; [right; exact H | left; reflexivity].
  - intros [->|H]; [right; split; [reflexivity | exact Hne] | left; exact H].
  - intros [H|[<- _]]; [right; exact H | left; reflexivity].
Qed.

Lemma dom_fold_bedlines cdsbed : forall d k,
  k ∈ dom (foldl add_bedline d cdsbed)
  <-> k ∈ dom d
      \/ exists ls, ls ∈ cdsbed /\ (chrom ls, strand ls) = k /\ thickstart ls <> thickend ls.
Proof.
  induction cdsbed as [|l cdsbed IH]; intros d k; simpl.
  - split; [auto|]. intros [H|(ls & Hin & _)]; [exact H | inversion Hin].
  - rewrite IH, dom_add_bedline. split.
    + intros [[H|H]|(ls & Hin & H)]; [auto | right | right].
      * exists l. split; [left | exact H].
      * exists ls. split; [right; exact Hin | exact H].
    + intros [H|(ls & Hin & H)]; [auto|].
      apply elem_of_cons in Hin as [->|Hin]; [auto | right; eauto].
Qed.

Lemma add_bedline_no_empty_unit d ls : no_empty_unit d -> no_empty_unit (add_bedline d ls).
Proof.
  intros Hd k s. unfold add_bedline.
  destruct (decide (thickstart ls <> thickend ls)); [|apply Hd].
  destruct (decide (strand ls = "+"%string)); rewrite lookup_insert;
    (destruct (decide ((chrom ls, strand ls) = k)); [|apply Hd]);
    intros [= <-]; set_solver.
Qed.

Lemma fold_bedlines_no_empty_unit cdsbed : forall d,
  no_empty_unit d -> no_empty_unit (foldl add_bedline d cdsbed).
Proof.
  induction cdsbed as [|l cdsbed IH]; intros d Hd; simpl; [exact Hd|].
  apply IH, add_bedline_no_empty_unit, Hd.
Qed.

Lemma lookup_default_Some d k s : d !! k = Some s -> lookup_default d k = s.
Proof. unfold lookup_default. intros ->. reflexivity. Qed.

End AnnotationKeys.

(** X3: the keys of the annotation index, which are the work units
    handed to the pool, are exactly the (chromosome, strand) pairs of the
    lines whose thick region is not empty; no key holds an empty set of
    start codons; and the index has no key at all exactly when every line
    has an empty thick region (an empty file included). *)
Theorem work_units_correct (cdsbed : list BedLine) :
  (forall k,
     k ∈ dom (build_gcoorddict cdsbed)
     <-> exists ls, ls ∈ cdsbed /\ (chrom ls, strand ls) = k /\ thickstart ls <> thickend ls)
  /\ (forall k s, build_gcoorddict cdsbed !! k = Some s -> s <> ∅)
  /\ (build_gcoorddict cdsbed = ∅
      <-> Forall (fun ls => thickstart ls = thickend ls) cdsbed).
Proof.
  assert (Hdom : forall k,
     k ∈ dom (build_gcoorddict cdsbed)
     <-> exists ls, ls ∈ cdsbed /\ (chrom ls, strand ls) = k /\ thickstart ls <> thickend ls).
  { intros k. unfold build_gcoorddict. rewrite dom_fold_bedlines, dom_empty_L.
    split; [intros [H|H]; [inversion H | exact H] | auto]. }
  split; [exact Hdom|]. split.
  - apply fold_bedlines_no_empty_unit. intros k s. rewrite lookup_empty. discriminate.
  - rewrite <- dom_empty_iff_L, Forall_forall. split.
    + intros Hempty ls Hin. destruct (decide (thickstart ls = thickend ls)) as [|Hne];
        [assumption|].
      assert (Hk : (chrom ls, strand ls) ∈ dom (build_gcoorddict cdsbed))
        by (apply Hdom; eauto).
      rewrite Hempty in Hk. inversion Hk.
    + intros Hall. apply set_eq. intros k. rewrite Hdom. split.
      * intros (ls & Hin & _ & Hne). destruct (Hne (Hall ls Hin)).
      * intros H. inversion H.
Qed.

(** X4: the annotation index depends only on which lines the file
    holds, not on their order or on how often a line is repeated. *)
Theorem annotation_order_irrelevant (cdsbed cdsbed' : list BedLine) :
  (forall ls, ls ∈ cdsbed <-> ls ∈ cdsbed') ->
  build_gcoorddict cdsbed = build_gcoorddict cdsbed'.
Proof.
  intros Hsame.
  assert (Hdom : forall k, k ∈ dom (build_gcoorddict cdsbed)
                           <-> k ∈ dom (build_gcoorddict cdsbed')).
  { intros k. unfold build_gcoorddict. rewrite !dom_fold_bedlines.
    split; (intros [H|(ls & Hin & H)]; [left; exact H | right; exists ls]);
      (split; [apply Hsame, Hin | exact H]). }
  assert (Hset : forall k, lookup_default (build_gcoorddict cdsbed) k
                           = lookup_default (build_gcoorddict cdsbed') k).
  { intros k. apply set_eq. intros z. unfold build_gcoorddict.
    rewrite !elem_of_fold_bedlines.
    split; (intros [H|(ls & Hin & H)]; [left; exact H | right; exists ls]);
      (split; [apply Hsame, Hin | exact H]). }
  apply map_eq. intros k. specialize (Hdom k). specialize (Hset k).
  rewrite !elem_of_dom in Hdom.
  destruct (build_gcoorddict cdsbed !! k) as [s|] eqn:H1,
           (build_gcoorddict cdsbed' !! k) as [s'|] eqn:H2.
  - rewrite (lookup_default_Some _ _ _ H1), (lookup_default_Some _ _ _ H2) in Hset.
    congruence.
  - destruct (proj1 Hdom) as [? ?]; [eauto | discriminate].
  - destruct (proj2 Hdom) as [? ?]; [eauto | discriminate].
  - reflexivity.
Qed.

Lemma annotation_order_irrelevant_witness :
  build_gcoorddict [cds_line; cds_line] = build_gcoorddict [cds_line].
Proof.
  apply annotation_order_irrelevant. intros ls. split; intros Hin.
  - apply elem_of_cons in Hin as [->|Hin]; [left | exact Hin].
  - right. exact Hin.
Defined.

(** ** TallyAccumulator: the whole work unit *)

Section WorkUnit.

Implicit Types (opts : Options) (inbams : list Samfile) (t acc : list (list Z)).




End WorkUnit.

(** X5: the matrix a work unit returns has the configured shape, and
    each of its cells holds, as a uint32 value, the number of reads the
    unit's loops tally in that cell: the reads fetched for the unit's
    start codons that pass the filters with that row and column. *)
Theorem work_unit_counts (opts : Options) (inbams : list Samfile)
    (d : gmap (string * string) (gset Z)) (set_iter : gset Z -> list Z)
    (k : string * string) (t : list (list Z)) :
  map_start_sites opts inbams d set_iter k = Some t ->
  tally_shape opts t
  /\ forall i j : nat,
       Z.of_nat i < maxrdlen opts + 1 - minrdlen opts -> Z.of_nat j < maxrdlen opts ->
       exists x, get_cell t i j = Some x
         /\ 0 <= x < 2 ^ 32
         /\ x = Numpy.uint32
                  (Z.of_nat (hits opts i j (visits inbams k (set_iter (lookup_default d k))))).
Proof.
  intros Ht. split; [eapply map_start_sites_shape, Ht|].
  intros i j Hi Hj. eexists. split; [eapply map_start_sites_counts; eassumption|].
  split; [|reflexivity]. unfold Numpy.uint32. apply Z.mod_pos_bound. lia.
Qed.

Lemma work_unit_counts_witness :
  tally_shape default_opts (bump 2 12 zero_tallies).
Proof.
  apply (work_unit_counts default_opts [one_read_bam] (build_gcoorddict [cds_line])
           elements ("chr1"%string, "+"%string) (bump 2 12 zero_tallies)).
  vm_compute. reflexivity.
Defined.



(** ** The reduction over the work units *)

Section Aggregate.

Implicit Types (opts : Options) (inbams : list Samfile) (t : list (list Z)).

Lemma cell_total_of_units {K} (f : K -> Z) (i j : nat) (ks : list K)
    (rs : list (list (list Z))) :
  Forall2 (fun k r => get_cell r i j = Some (Numpy.uint32 (f k))) ks rs ->
  Numpy.uint32 (cell_total rs i j) = Numpy.uint32 (Numpy.sum (map f ks)).
Proof.
  induction 1 as [|k r ks rs Hr _ IH]; [reflexivity|].
  unfold cell_total in *. simpl. rewrite Hr. simpl.
  rewrite uint32_add_idemp. unfold Numpy.uint32 in *.
  rewrite (Z.add_mod (f k)), IH, <- Z.add_mod by lia. reflexivity.
Qed.

Lemma fold_ndarray_is_array (rs : list (list (list Z))) : forall a,
  exists t, foldl py_add (NdArray a) rs = NdArray t.
Proof. induction rs as [|r rs IH]; intros a; simpl; [eauto | apply IH]. Qed.

Lemma astype_sum_None (rs : list (list (list Z))) :
  astype_float64 (py_sum rs) = None <-> rs = [].
Proof.
  destruct rs as [|r rs]; [split; reflexivity|]. unfold py_sum. simpl.
  destruct (fold_ndarray_is_array rs (Numpy.scalar_add 0 r)) as [t ->].
  split; discriminate.
Qed.

Lemma keys_nil_iff (d : gmap (string * string) (gset Z)) (ord : Order) :
  key_order (keys ord) -> keys ord d = [] <-> d = ∅.
Proof.
  intros Hk. rewrite <- dom_empty_iff_L. split.
  - intros Hnil. apply set_eq. intros k. rewrite <- elem_of_elements, <- (Hk d), Hnil.
    split; intros H; inversion H.
  - intros Hempty. apply Permutation_nil_r. rewrite (Hk d), Hempty, elements_empty.
    reflexivity.
Qed.

End Aggregate.

(** X7: the aggregate the reduction returns has the configured shape,
    and each of its cells holds, as a uint32 value, the number of reads
    tallied in that cell over all the work units. *)
Theorem aggregate_counts (opts : Options) (inbams : list Samfile)
    (d : gmap (string * string) (gset Z)) (ord : Order) (t : list (list Z)) :
  admissible ord ->
  reduce_tallies opts inbams d ord = Some t ->
  tally_shape opts t
  /\ forall i j : nat,
       Z.of_nat i < maxrdlen opts + 1 - minrdlen opts -> Z.of_nat j < maxrdlen opts ->
       exists x, get_cell t i j = Some x
         /\ 0 <= x < 2 ^ 32
         /\ x = Numpy.uint32 (total_hits opts inbams d ord i j).
Proof.
  intros Hord Ht. split; [eapply reduce_tallies_shape; eassumption|].
  intros i j Hi Hj. destruct Hord as (_ & _ & Hsched).
  unfold reduce_tallies in Ht. destruct (Pool.create _) as [n|]; simpl in Ht; [|discriminate].
  rewrite pool_map_mapM in Ht by assumption.
  destruct (mapM _ (keys ord d)) as [results|] eqn:Hres; simpl in Ht; [|discriminate].
  apply mapM_Some in Hres.
  assert (Hshapes : Forall (tally_shape opts) results).
  { apply Forall_lookup_2. intros p r Hr.
    destruct (Forall2_lookup_r _ _ _ _ _ Hres Hr) as (k & _ & Hk).
    eapply map_start_sites_shape, Hk. }
  assert (Hne : results <> []) by (intros ->; discriminate).
  destruct (py_sum_cell opts results i j Hne Hshapes Hi Hj) as (t' & Hsum & Hcell).
  rewrite Hsum in Ht. injection Ht as ->.
  eexists. split; [exact Hcell|]. split.
  - unfold Numpy.uint32. apply Z.mod_pos_bound. lia.
  - unfold total_hits. apply cell_total_of_units.
    eapply Forall2_impl; [exact Hres|]. intros k r Hk. simpl in Hk.
    eapply map_start_sites_counts; eassumption.
Qed.

Lemma aggregate_counts_witness :
  tally_shape default_opts (bump 2 12 zero_tallies).
Proof.
  apply (aggregate_counts default_opts [one_read_bam] (build_gcoorddict [cds_line])
           reversed (bump 2 12 zero_tallies)).
  - repeat split; intros x; apply reverse_Permutation.
  - vm_compute. reflexivity.
Defined.

(** X8: lines 83-84 raise in exactly three cases: fewer than one worker
    is configured, the annotation index has no key (the sum of no
    matrices is the int 0, which cannot be converted), or one of the
    work units raises. *)
Theorem reduction_raises_iff (opts : Options) (inbams : list Samfile)
    (d : gmap (string * string) (gset Z)) (ord : Order) :
  admissible ord ->
  reduce_tallies opts inbams d ord = None
  <-> numproc opts < 1
      \/ d = ∅
      \/ exists k, k ∈ dom d /\ map_start_sites opts inbams d (iter ord) k = None.
Proof.
  intros (_ & Hkeys & Hsched). unfold reduce_tallies, Pool.create.
  destruct (Z.ltb_spec (numproc opts) 1) as [Hlt|Hge]; simpl; [tauto|].
  rewrite pool_map_mapM by assumption.
  destruct (mapM _ (keys ord d)) as [results|] eqn:Hres; simpl.
  - rewrite astype_sum_None. apply mapM_Some in Hres. split.
    + intros ->. apply Forall2_nil_inv_r in Hres. right. left.
      apply (keys_nil_iff d ord Hkeys), Hres.
    + intros [H|[Hempty|(k & Hk & Hnone)]]; [lia | |].
      * apply (keys_nil_iff d ord Hkeys) in Hempty. rewrite Hempty in Hres.
        apply Forall2_nil_inv_l in Hres. exact Hres.
      * apply elem_of_elements in Hk. rewrite <- (Hkeys d) in Hk.
        apply list_elem_of_lookup in Hk as [p Hp].
        destruct (Forall2_lookup_l _ _ _ _ _ Hres Hp) as (r & _ & Hr). congruence.
  - split; [intros _ | reflexivity]. right. right.
    apply mapM_None, Exists_exists in Hres as (k & Hk & Hnone).
    exists k. split; [|exact Hnone]. apply elem_of_elements. rewrite <- (Hkeys d). exact Hk.
Qed.

Lemma reduction_raises_iff_witness :
  reduce_tallies default_opts [one_read_bam] (build_gcoorddict []) in_order = None.
Proof.
  apply (reduction_raises_iff default_opts [one_read_bam] (build_gcoorddict []) in_order).
  - repeat split; intros x; reflexivity.
  - right. left. reflexivity.
Defined.

(** ** OffsetResolver: range, empty data, displaced and rescaled profiles *)

Section ResolverMore.

Implicit Types (a row master : list Z) (t : list (list Z)) (opts : Options).

Lemma all_zero_replicate a : Forall (fun x => x = 0) a -> a = replicate (length a) 0.
Proof. induction 1 as [|x a -> _ IH]; simpl; [reflexivity | f_equal; exact IH]. Qed.

Lemma offsets_inv opts t offs :
  offsets opts t = Some offs ->
  exists mi master mo,
    master_rdlen_idx t = Some mi /\ t !! mi = Some master
    /\ master_row t = Some master /\ master_offset t = Some mo
    /\ Numpy.argmax master = Some mo /\ length offs = length t.
Proof.
  unfold offsets. destruct (master_row t) as [master|] eqn:Hrow; simpl; [|discriminate].
  destruct (master_offset t) as [mo|] eqn:Hmo; simpl; [|discriminate].
  intros Hoffs. apply mapM_Some, Forall2_length in Hoffs.
  assert (Hmi : exists mi, master_rdlen_idx t = Some mi /\ t !! mi = Some master).
  { unfold master_row in Hrow. destruct (master_rdlen_idx t) as [mi|]; [|discriminate].
    exists mi. auto. }
  destruct Hmi as (mi & Hmi & Hmaster).
  assert (Harg : Numpy.argmax master = Some mo).
  { unfold master_offset in Hmo. rewrite Hrow in Hmo. exact Hmo. }
  exists mi, master, mo. repeat split; congruence.
Qed.

Lemma argmax_lt v i : Numpy.argmax v = Some i -> (i < length v)%nat.
Proof. intros H. apply argmax_first in H as (x & Hx & _). eapply lookup_lt_Some, Hx. Qed.

End ResolverMore.

(** X9: every offset the resolver returns lies within maxReadLength - 1
    columns of the master offset, hence strictly between -maxReadLength
    and 2 * maxReadLength - 1; offsets can be negative.  There is one
    offset per row. *)
Theorem offsets_bounded (opts : Options) (t : list (list Z)) (offs : list Z) :
  tally_shape opts t ->
  offsets opts t = Some offs ->
  length offs = length t
  /\ exists mo,
       master_offset t = Some mo
       /\ Z.of_nat mo < maxrdlen opts
       /\ forall i off, offs !! i = Some off ->
            Z.of_nat mo + 1 - maxrdlen opts <= off <= Z.of_nat mo + maxrdlen opts - 1
            /\ - maxrdlen opts < off < 2 * maxrdlen opts - 1.
Proof.
  intros (Hmax & Hrows & Hcols) Hoffs.
  destruct (offsets_inv _ _ _ Hoffs) as (mi & master & mo & _ & Hmi & Hrow & Hmo & Harg & Hlen).
  split; [exact Hlen|]. exists mo. split; [exact Hmo|].
  pose proof (Forall_lookup_1 _ _ _ _ Hcols Hmi) as Hm. simpl in Hm.
  pose proof (argmax_lt _ _ Harg) as Hmolt.
  split; [lia|]. intros i off Hi.
  destruct (lookup_lt_is_Some_2 t i) as [row Hrowi];
    [apply lookup_lt_Some in Hi; lia|].
  pose proof (Forall_lookup_1 _ _ _ _ Hcols Hrowi) as Hr. simpl in Hr.
  destruct (offsets_lookup _ _ _ _ _ _ _ Hrow Hmo Hoffs Hrowi) as (lag & Hlag & Hoff).
  apply argmax_lt in Hlag. rewrite length_correlate_full in Hlag.
  rewrite Hi in Hoff. injection Hoff as ->. lia.
Qed.

Lemma offsets_bounded_witness :
  length [2; -2] = length sparse_tallies.
Proof.
  apply (offsets_bounded small_opts sparse_tallies [2; -2]).
  - unfold sparse_tallies. shape_by_evaluation.
  - reflexivity.
Defined.

(** X10: when no read was tallied at all, so that the aggregate is zero
    everywhere, the resolver still returns: the master row is the first
    row, the master offset is 0, and every read length gets the offset
    1 - maxReadLength. *)
Theorem empty_aggregate_offsets (opts : Options) (t : list (list Z)) :
  tally_shape opts t -> minrdlen opts <= maxrdlen opts -> 1 <= maxrdlen opts ->
  Forall (Forall (fun x => x = 0)) t ->
  master_rdlen_idx t = Some 0%nat
  /\ master_offset t = Some 0%nat
  /\ offsets opts t = Some (replicate (length t) (1 - maxrdlen opts)).
Proof.
  intros Hshape Hmin Hone Hzero.
  destruct (offsets_defined opts t Hshape Hmin Hone)
    as (mi & master & mo & offs & Hmi & Hmaster & Hrow & Hmo & Hoffs & Hlen).
  destruct Hshape as (Hmax & Hrows & Hcols).
  assert (Hsums : Numpy.sum1 t = replicate (length t) 0).
  { unfold Numpy.sum1. rewrite <- (length_map Numpy.sum t). apply all_zero_replicate.
    rewrite map_is_fmap. apply Forall_fmap. eapply Forall_impl; [exact Hzero|].
    intros row Hrow0. simpl. rewrite (all_zero_replicate row Hrow0).
    clear. induction (length row) as [|n IH]; simpl; [reflexivity | rewrite IH; reflexivity]. }
  assert (Hmi0 : mi = 0%nat).
  { unfold master_rdlen_idx in Hmi. rewrite Hsums in Hmi.
    destruct (length t) as [|n] eqn:Hn; [simpl in Hmi; discriminate|].
    rewrite argmax_zeros in Hmi. congruence. }
  subst mi.
  pose proof (Forall_lookup_1 _ _ _ _ Hzero Hmaster) as Hmz. simpl in Hmz.
  pose proof (Forall_lookup_1 _ _ _ _ Hcols Hmaster) as Hml. simpl in Hml.
  assert (Hmo0 : mo = 0%nat).
  { unfold master_offset in Hmo. rewrite Hrow in Hmo. simpl in Hmo.
    rewrite (all_zero_replicate master Hmz) in Hmo.
    destruct (length master) as [|n]; [lia|]. rewrite argmax_zeros in Hmo. congruence. }
  subst mo. split; [exact Hmi|]. split; [exact Hmo|]. rewrite Hoffs. f_equal.
  apply list_eq. intros i. destruct (decide (i < length t)%nat) as [Hi|Hi].
  - rewrite lookup_replicate_2 by assumption.
    destruct (lookup_lt_is_Some_2 t i Hi) as [row Hrowi].
    pose proof (Forall_lookup_1 _ _ _ _ Hzero Hrowi) as Hrz. simpl in Hrz.
    pose proof (Forall_lookup_1 _ _ _ _ Hcols Hrowi) as Hrl. simpl in Hrl.
    destruct (offsets_lookup _ _ _ _ _ _ _ Hrow Hmo Hoffs Hrowi) as (lag & Hlag & Hoff).
    rewrite correlate_zero_row in Hlag by assumption.
    replace (length row + length master - 1)%nat
      with (S (length row + length master - 2)) in Hlag by lia.
    rewrite argmax_zeros in Hlag. injection Hlag as <-. rewrite Hoff. f_equal; lia.
  - rewrite !lookup_ge_None_2; [reflexivity | rewrite length_replicate; lia | lia].
Qed.

Lemma empty_aggregate_offsets_witness :
  offsets default_opts zero_tallies = Some (replicate 8 (-33)).
Proof.
  apply (empty_aggregate_offsets default_opts zero_tallies).
  - unfold zero_tallies. shape_by_evaluation.
  - simpl. lia.
  - simpl. lia.
  - repeat constructor.
Defined.

Section Displaced.

Implicit Types (a : list Z) (n m k : nat).

Lemma padded_window_length a n m k :
  (k <= n + m)%nat ->
  length (take (length a) (drop k (replicate n 0 ++ a ++ replicate m 0))) = length a.
Proof.
  intros Hk. rewrite length_take, length_drop, !length_app, !length_replicate. lia.
Qed.

Lemma padded_norm a n m :
  Numpy.dot (replicate n 0 ++ a ++ replicate m 0) (replicate n 0 ++ a ++ replicate m 0)
  = Numpy.dot a a.
Proof. rewrite !dot_self_app, !dot_self_zeros. lia. Qed.

Lemma padded_bound a n m k :
  (k <= n + m)%nat ->
  Numpy.dot (drop k (replicate n 0 ++ a ++ replicate m 0)) a <= Numpy.dot a a.
Proof.
  intros Hk. set (p := replicate n 0 ++ a ++ replicate m 0).
  rewrite <- (dot_take (drop k p) a).
  pose proof (double_dot_le _ _ (padded_window_length a n m k Hk)) as Hcs. fold p in Hcs.
  pose proof (dot_self_take (length a) (drop k p)) as Htake.
  pose proof (dot_self_drop k p) as Hdrop.
  pose proof (padded_norm a n m) as Hnorm. fold p in Hnorm. lia.
Qed.

Lemma padded_centre a n m :
  Numpy.dot (drop n (replicate n 0 ++ a ++ replicate m 0)) a = Numpy.dot a a.
Proof.
  rewrite drop_app_length' by (rewrite length_replicate; reflexivity).
  apply dot_app_l. reflexivity.
Qed.

Lemma padded_copy_zero a n m k :
  (k < n)%nat ->
  take (length a) (drop k (replicate n 0 ++ a ++ replicate m 0)) = a ->
  forall i x, a !! i = Some x -> x = 0.
Proof.
  intros Hk Heq i. induction i as [i IH] using lt_wf_ind. intros x Hx.
  apply lookup_lt_Some in Hx as Hi.
  pose proof (f_equal (fun l => l !! i) Heq) as Hlook. simpl in Hlook.
  rewrite lookup_take_lt, lookup_drop in Hlook by assumption. rewrite Hx in Hlook.
  destruct (decide (k + i < n)%nat) as [Hpad|Hin].
  - rewrite lookup_app_l in Hlook by (rewrite length_replicate; assumption).
    rewrite lookup_replicate_2 in Hlook by assumption. congruence.
  - rewrite lookup_app_r, length_replicate in Hlook by (rewrite length_replicate; lia).
    rewrite lookup_app_l in Hlook by lia.
    apply (IH (k + i - n)%nat); [lia | exact Hlook].
Qed.

Lemma padded_strict a n m k :
  (exists p x, a !! p = Some x /\ x <> 0) -> (k < n)%nat ->
  Numpy.dot (drop k (replicate n 0 ++ a ++ replicate m 0)) a < Numpy.dot a a.
Proof.
  intros (p & x & Hp & Hx) Hk. set (q := replicate n 0 ++ a ++ replicate m 0).
  destruct (Z.lt_ge_cases (Numpy.dot (drop k q) a) (Numpy.dot a a)) as [Hlt|Hge];
    [exact Hlt|].
  exfalso. apply Hx. apply (padded_copy_zero a n m k Hk) with (i := p); [|exact Hp].
  fold q. rewrite <- (dot_take (drop k q) a) in Hge.
  apply double_dot_eq; [apply padded_window_length; lia|]. fold q.
  pose proof (dot_self_take (length a) (drop k q)) as Htake.
  pose proof (dot_self_drop k q) as Hdrop.
  pose proof (padded_norm a n m) as Hnorm. fold q in Hnorm. lia.
Qed.

(** A profile moved [d] columns, once padded for the correlation, is the
    master profile padded unevenly. *)
Lemma shift_padded a (d : Z) :
  (exists p x, a !! p = Some x /\ x <> 0) -> shift_lossless d a ->
  - Z.of_nat (length a) < d < Z.of_nat (length a)
  /\ length (shift_columns d a) = length a
  /\ replicate (length a - 1) 0 ++ shift_columns d a ++ replicate (length a - 1) 0
     = replicate (Z.to_nat (Z.of_nat (length a) - 1 + d)) 0 ++ a
       ++ replicate (Z.to_nat (Z.of_nat (length a) - 1 - d)) 0.
Proof.
  intros (p & x & Hp & Hx) Hloss. unfold shift_lossless, shift_columns in *.
  apply lookup_lt_Some in Hp as Hplt.
  destruct (Z.leb_spec 0 d) as [Hd|Hd].
  - remember (Z.to_nat d) as e eqn:He'.
    assert (He : (e < length a)%nat).
    { destruct (decide (e < length a)%nat) as [|Hge]; [assumption|]. exfalso. apply Hx.
      replace (length a - e)%nat with 0%nat in Hloss by lia. rewrite drop_0 in Hloss.
      apply (Forall_lookup_1 _ _ _ _ Hloss Hp). }
    split; [lia|]. split; [rewrite length_app, length_replicate, length_take; lia|].
    assert (Ha : a = take (length a - e) a ++ replicate e 0).
    { rewrite <- (take_drop (length a - e) a) at 1. f_equal.
      rewrite (all_zero_replicate _ Hloss), length_drop. f_equal. lia. }
    remember (length a) as L eqn:HL. remember (take (L - e) a) as b eqn:Hb.
    rewrite Ha. replace (Z.to_nat (Z.of_nat L - 1 + d)) with ((L - 1) + e)%nat by lia.
    rewrite replicate_add, <- !app_assoc. do 3 f_equal.
    rewrite <- replicate_add. f_equal. lia.
  - remember (Z.to_nat (- d)) as e eqn:He'.
    assert (He : (e < length a)%nat).
    { destruct (decide (e < length a)%nat) as [|Hge]; [assumption|]. exfalso. apply Hx.
      rewrite take_ge in Hloss by lia. apply (Forall_lookup_1 _ _ _ _ Hloss Hp). }
    split; [lia|]. split; [rewrite length_app, length_replicate, length_drop; lia|].
    assert (Ha : a = replicate e 0 ++ drop e a).
    { rewrite <- (take_drop e a) at 1. f_equal.
      rewrite (all_zero_replicate _ Hloss), length_take. f_equal. lia. }
    remember (length a) as L eqn:HL. remember (drop e a) as b eqn:Hb.
    rewrite Ha. replace (Z.to_nat (Z.of_nat L - 1 - d)) with (e + (L - 1))%nat by lia.
    rewrite (replicate_add e (L - 1)), <- !app_assoc.
    rewrite (app_assoc (replicate (Z.to_nat (Z.of_nat L - 1 + d)) 0)), <- replicate_add.
    rewrite <- replicate_add. f_equal. f_equal. lia.
Qed.

(** The correlation of a displaced copy against the original peaks
    first at the centre lag moved by the displacement. *)
Lemma displaced_correlation_peak a (d : Z) :
  (exists p x, a !! p = Some x /\ x <> 0) -> shift_lossless d a ->
  Numpy.argmax (Numpy.correlate_full (shift_columns d a) a)
  = Some (Z.to_nat (Z.of_nat (length a) - 1 + d)).
Proof.
  intros Hnz Hloss. destruct (shift_padded a d Hnz Hloss) as (Hd & Hlen & Hpad).
  set (n := Z.to_nat (Z.of_nat (length a) - 1 + d)) in *.
  set (m := Z.to_nat (Z.of_nat (length a) - 1 - d)) in *.
  apply argmax_intro. exists (Numpy.dot a a). split; [|split].
  - rewrite lookup_correlate_full by lia. rewrite Hpad. f_equal. apply padded_centre.
  - intros j y Hj. apply lookup_lt_Some in Hj as Hlt. rewrite length_correlate_full in Hlt.
    rewrite lookup_correlate_full in Hj by assumption. injection Hj as <-.
    rewrite Hpad. apply padded_bound. lia.
  - intros j y Hlt Hj. rewrite lookup_correlate_full in Hj by lia. injection Hj as <-.
    rewrite Hpad. apply padded_strict; assumption.
Qed.

End Displaced.

(** X11: a row whose profile is the master row's profile moved [d]
    columns (right for positive [d], left for negative, with only zero
    cells pushed out of the row) is resolved to the master offset plus
    [d]: the resolver recovers the displacement exactly. *)
Theorem displaced_row_offset (opts : Options) (t : list (list Z)) (master : list Z)
    (i : nat) (d : Z) :
  tally_shape opts t ->
  master_row t = Some master ->
  (exists p x, master !! p = Some x /\ x <> 0) ->
  shift_lossless d master ->
  t !! i = Some (shift_columns d master) ->
  exists mo offs,
    master_offset t = Some mo
    /\ offsets opts t = Some offs
    /\ offs !! i = Some (Z.of_nat mo + d).
Proof.
  intros Hshape Hrow Hnz Hloss Hi.
  pose proof Hshape as (Hmax & Hrows & Hcols).
  pose proof (Forall_lookup_1 _ _ _ _ Hcols Hi) as Hlen. simpl in Hlen.
  destruct (shift_padded master d Hnz Hloss) as (Hd & Hlens & _).
  assert (Hrowsn : (0 < length t)%nat) by (apply lookup_lt_Some in Hi; lia).
  destruct (offsets_defined opts t Hshape ltac:(lia) ltac:(lia))
    as (mi & master' & mo & offs & _ & _ & Hrow' & Hmo & Hoffs & _).
  rewrite Hrow in Hrow'. injection Hrow' as <-.
  exists mo, offs. split; [exact Hmo|]. split; [exact Hoffs|].
  destruct (offsets_lookup _ _ _ _ _ _ _ Hrow Hmo Hoffs Hi) as (lag & Hlag & Hoff).
  rewrite (displaced_correlation_peak master d Hnz Hloss) in Hlag. injection Hlag as <-.
  rewrite Hoff. f_equal. lia.
Qed.

Lemma displaced_row_offset_witness :
  exists offs, offsets small_opts shifted_tallies = Some offs /\ offs !! 1%nat = Some 1.
Proof.
  destruct (displaced_row_offset small_opts shifted_tallies [0; 0; 5; 5; 0] 1 (-1))
    as (mo & offs & Hmo & Hoffs & Hoff).
  - unfold shifted_tallies. shape_by_evaluation.
  - reflexivity.
  - exists 2%nat, 5. split; [reflexivity | lia].
  - unfold shift_lossless. simpl. repeat constructor.
  - reflexivity.
  - exists offs. split; [exact Hoffs|]. injection Hmo as <-. exact Hoff.
Defined.

Section Rescaled.

Implicit Types (a u v : list Z) (t : list (list Z)) (c : Z).










End Rescaled.



(** ** The whole run *)

Section WholeRun.

Implicit Types (opts : Options) (bams : list Samfile) (w : World) (t : list (list Z)).

Lemma write_and_close_outcome opts bams t w :
  handles w = replicate (length bams) true ->
  write_and_close opts bams t w
  = match offsets opts t with
    | Some offs =>
        (Some tt,
         {| handles := replicate (length bams) false;
            files := <[offsetfile opts := offset_text opts offs]>
                       (tally_written opts t (files w)) |})
    | None =>
        (None, {| handles := replicate (length bams) true;
                  files := tally_written opts t (files w) |})
    end.
Proof.
  intros Hw. unfold write_and_close, tally_written, mbind, script_bind, eval.
  destruct (tallyfile opts) as [path|]; simpl;
    (destruct (offsets opts t) as [offs|]; simpl;
     [unfold enumerate; rewrite (close_loop bams 0) by exact Hw; reflexivity
     | rewrite <- Hw; destruct w; reflexivity]).
Qed.

Lemma main_outcome opts bams cdsbed (ord : Order) :
  main opts bams cdsbed ord start
  = match reduce_tallies opts bams (build_gcoorddict cdsbed) ord with
    | None => (None, {| handles := replicate (length bams) true; files := ∅ |})
    | Some t =>
        match offsets opts t with
        | Some offs =>
            (Some tt,
             {| handles := replicate (length bams) false;
                files := <[offsetfile opts := offset_text opts offs]>
                           (tally_written opts t ∅) |})
        | None =>
            (None, {| handles := replicate (length bams) true;
                      files := tally_written opts t ∅ |})
        end
    end.
Proof.
  unfold main, mbind, script_bind, open_samfiles, eval. simpl.
  destruct (reduce_tallies opts bams (build_gcoorddict cdsbed) ord) as [t|]; [|reflexivity].
  rewrite write_and_close_outcome by reflexivity. reflexivity.
Qed.


End WholeRun.





(** ** Strands and the order of the alignment files *)

Section Symmetry.

Implicit Types (ps : list Z) (inbams : list Samfile).

Lemma first_index_unique_position ps g i :
  NoDup ps -> ps !! i = Some g -> is_first_index ps g i.
Proof.
  intros Hnd Hi. split; [exact Hi|]. intros j Hj Hg.
  pose proof (NoDup_lookup _ _ _ _ Hnd Hi Hg). lia.
Qed.

Lemma fetched_permutation inbams inbams' (reference : string) (lo hi : Z) :
  inbams ≡ₚ inbams' ->
  concat (map (fun bamfile => fetch bamfile reference lo hi) inbams)
  ≡ₚ concat (map (fun bamfile => fetch bamfile reference lo hi) inbams').
Proof.
  induction 1 as [|b l l' _ IH|b1 b2 l|l l' l'' _ IH1 _ IH2]; simpl.
  - reflexivity.
  - rewrite IH. reflexivity.
  - rewrite !app_assoc. apply Permutation_app_tail, Permutation_app_comm.
  - etransitivity; eassumption.
Qed.

Lemma get_reads_permutation inbams inbams' (reference strand : string) (gcoord : Z) :
  inbams ≡ₚ inbams' ->
  get_reads inbams reference strand gcoord ≡ₚ get_reads inbams' reference strand gcoord.
Proof.
  intros Hperm. unfold get_reads.
  destruct (decide (strand = "+"%string));
    rewrite (fetched_permutation _ _ reference gcoord (gcoord + 1) Hperm); reflexivity.
Qed.

Lemma map_start_sites_bam_order (opts : Options) inbams inbams'
    (d : gmap (string * string) (gset Z)) (set_iter : gset Z -> list Z) (k : string * string) :
  inbams ≡ₚ inbams' ->
  map_start_sites opts inbams d set_iter k = map_start_sites opts inbams' d set_iter k.
Proof.
  intros Hperm. unfold map_start_sites.
  destruct (Numpy.zeros _ _) as [t0|]; simpl; [|reflexivity].
  rewrite !nested_loops_visits. apply for_each_permutation.
  - intros acc x y. apply tally_read_comm.
  - unfold visits. induction (set_iter (lookup_default d k)) as [|g gs IH]; [reflexivity|].
    rewrite !bind_cons, IH, (get_reads_permutation _ _ k.1 k.2 g Hperm). reflexivity.
Qed.

End Symmetry.

(** X15: offsets are measured from the 5' end whatever the strand: a
    reverse-strand read whose positions are those of a forward-strand
    read listed backwards gets the same offset for every coordinate (a
    read covers each position once). *)
Theorem strand_symmetry (ps : list Z) (ln ln' : Z * Z) (gcoord : Z) :
  NoDup ps ->
  offset_to_gcoord {| is_reverse := true; positions := reverse ps; length_nmis := ln |} gcoord
  = offset_to_gcoord {| is_reverse := false; positions := ps; length_nmis := ln' |} gcoord.
Proof.
  intros Hnd. destruct (decide (gcoord ∈ ps)) as [Hin|Hout].
  - apply list_elem_of_lookup in Hin as [i Hi]. apply lookup_lt_Some in Hi as Hlt.
    rewrite (offset_of_first_index
               {| is_reverse := false; positions := ps; length_nmis := ln' |} gcoord i)
      by (apply first_index_unique_position; assumption).
    rewrite (offset_of_first_index
               {| is_reverse := true; positions := reverse ps; length_nmis := ln |}
               gcoord (length ps - S i)).
    + simpl. rewrite length_reverse. f_equal. lia.
    + simpl. apply first_index_unique_position; [rewrite reverse_Permutation; exact Hnd|].
      rewrite reverse_lookup by lia. rewrite <- Hi. f_equal. lia.
  - rewrite !offset_not_found; [reflexivity | exact Hout |].
    simpl. rewrite elem_of_reverse. exact Hout.
Qed.

Lemma strand_symmetry_witness :
  offset_to_gcoord
    {| is_reverse := true; positions := reverse [100; 101; 102; 103]; length_nmis := (4, 0) |}
    101
  = offset_to_gcoord
      {| is_reverse := false; positions := [100; 101; 102; 103]; length_nmis := (4, 0) |} 101.
Proof.
  apply (strand_symmetry [100; 101; 102; 103] (4, 0) (4, 0) 101).
  repeat constructor; rewrite ?elem_of_cons; intros H;
    repeat (destruct H as [H|H]; [discriminate|]); inversion H.
Defined.

(** X16: the order in which the alignment files are named on the
    command line does not matter: two runs that list the same files in
    different orders end in the same state, with the same output files. *)
Theorem bam_order_irrelevant (opts : Options) (bams bams' : list Samfile)
    (cdsbed : list BedLine) (ord : Order) :
  admissible ord -> bams ≡ₚ bams' ->
  main opts bams cdsbed ord start = main opts bams' cdsbed ord start.
Proof.
  intros (_ & _ & Hsched) Hperm. rewrite !main_outcome.
  assert (Hred : reduce_tallies opts bams (build_gcoorddict cdsbed) ord
                 = reduce_tallies opts bams' (build_gcoorddict cdsbed) ord).
  { unfold reduce_tallies. destruct (Pool.create _) as [n|]; simpl; [|reflexivity].
    rewrite !pool_map_mapM by assumption.
    rewrite (mapM_ext _ (map_start_sites opts bams' (build_gcoorddict cdsbed) (iter ord)))
      by (intros k; apply map_start_sites_bam_order, Hperm).
    reflexivity. }
  rewrite Hred, (Permutation_length Hperm). reflexivity.
Qed.

Lemma bam_order_irrelevant_witness :
  main default_opts [one_read_bam; long_read_bam] [cds_line] in_order start
  = main default_opts [long_read_bam; one_read_bam] [cds_line] in_order start.
Proof.
  apply bam_order_irrelevant.
  - repeat split; intros x; reflexivity.
  - apply perm_swap.
Defined.

(** ** rate_regression_output.py: inputs and data set names *)

Section Strings.

Import Str.

Implicit Types (c x : ascii) (s t : string).

Lemma contains_app c s t : contains c (s +:+ t) = contains c s || contains c t.
Proof.
  induction s as [|x s IH]; simpl; [reflexivity|].
  rewrite IH, orb_assoc. reflexivity.
Qed.

Lemma after_last_absent c s : contains c s = false -> after_last c s = s.
Proof.
  destruct s as [|x r]; simpl; [reflexivity|].
  intros H. apply orb_false_iff in H as [Hx Hr]. rewrite Hr, Hx. reflexivity.
Qed.

Lemma after_last_app c s t :
  contains c t = false -> after_last c (s +:+ String c t) = t.
Proof.
  intros Ht. induction s as [|x s IH]; simpl.
  - rewrite Ht, Ascii.eqb_refl. reflexivity.
  - rewrite contains_app. simpl. rewrite Ascii.eqb_refl, orb_true_r. exact IH.
Qed.

Lemma rpartition_absent c s :
  contains c s = false -> rpartition c s = (EmptyString, EmptyString, s).
Proof.
  destruct s as [|x r]; simpl; [reflexivity|].
  intros H. apply orb_false_iff in H as [Hx Hr]. rewrite Hr, Hx. reflexivity.
Qed.

Lemma rpartition_app c s t :
  contains c t = false ->
  rpartition c (s +:+ String c t) = (s, String c EmptyString, t).
Proof.
  intros Ht. induction s as [|x s IH]; simpl.
  - rewrite Ht, Ascii.eqb_refl. reflexivity.
  - rewrite contains_app. simpl. rewrite Ascii.eqb_refl, orb_true_r, IH. reflexivity.
Qed.

Lemma endswith_contains c s : endswith c s = true -> contains c s = true.
Proof.
  induction s as [|x r IH]; simpl; [discriminate|].
  destruct r as [|y r'].
  - intros ->. reflexivity.
  - intros H. rewrite (IH H). apply orb_true_r.
Qed.

Lemma after_last_endswith c s : endswith c s = true -> after_last c s = EmptyString.
Proof.
  induction s as [|x r IH]; simpl; [discriminate|].
  destruct r as [|y r'].
  - simpl. intros ->. reflexivity.
  - intros H. rewrite (endswith_contains _ _ H). exact (IH H).
Qed.

Lemma endswith_lstrip c c' s :
  c <> c' -> endswith c s = true -> endswith c (lstrip c' s) = true.
Proof.
  intros Hne. induction s as [|x r IH]; simpl; [discriminate|].
  destruct (Ascii.eqb_spec x c') as [->|Hx].
  - destruct r as [|y r']; [|exact IH].
    intros H. apply Ascii.eqb_eq in H. congruence.
  - intros H. exact H.
Qed.

Lemma rstrip_endswith c c' s :
  c <> c' -> endswith c s = true -> rstrip c' s = s.
Proof.
  intros Hne. induction s as [|x r IH]; simpl; [discriminate|].
  destruct r as [|y r'].
  - intros H. apply Ascii.eqb_eq in H. subst x. simpl.
    destruct (Ascii.eqb_spec c c'); [contradiction|reflexivity].
  - intros H. rewrite (IH H). reflexivity.
Qed.

Lemma lstrip_id c s : startswith c s = false -> lstrip c s = s.
Proof. destruct s as [|x r]; simpl; [reflexivity|]. intros ->. reflexivity. Qed.

Lemma rstrip_id c s : endswith c s = false -> rstrip c s = s.
Proof.
  induction s as [|x r IH]; simpl; [reflexivity|].
  destruct r as [|y r'].
  - simpl. intros ->. reflexivity.
  - intros H. rewrite (IH H). reflexivity.
Qed.

Lemma strip_id c s :
  startswith c s = false -> endswith c s = false -> strip c s = s.
Proof.
  intros Hs He. unfold strip. rewrite (lstrip_id _ _ Hs). apply rstrip_id, He.
Qed.

End Strings.

Section Inputs.

Import RateRegression.

Variable fs : Posixpath.FileSystem.

Implicit Types (todo regressfiles colnames : list string) (named : bool).

Lemma resolve_loop_found named todo regressfiles colnames :
  Forall (fun f => found fs f = true) todo ->
  resolve_loop fs named todo regressfiles colnames
  = inr (regressfiles ++ (resolved fs <$> todo),
         if named then colnames else colnames ++ (inferred_name fs <$> todo)).
Proof.
  intros Hall. revert regressfiles colnames.
  induction Hall as [|f rest Hf _ IH]; intros regressfiles colnames.
  - simpl. rewrite !app_nil_r. destruct named; reflexivity.
  - rewrite !fmap_cons, (cons_middle _ regressfiles), (cons_middle _ colnames), !app_assoc.
    unfold found in Hf. unfold resolved at 1, inferred_name at 1. simpl.
    destruct (Posixpath.isfile fs f) eqn:Hfile.
    + rewrite IH. destruct named; reflexivity.
    + simpl in Hf. rewrite Hf, IH. destruct named; reflexivity.
Qed.

Lemma resolve_loop_missing named todo regressfiles colnames i f :
  todo !! i = Some f -> found fs f = false ->
  (forall j g, (j < i)%nat -> todo !! j = Some g -> found fs g = true) ->
  resolve_loop fs named todo regressfiles colnames
  = inl (IOError ("Regression file/directory " +:+ f +:+ " not found")).
Proof.
  revert i regressfiles colnames.
  induction todo as [|g rest IH]; intros i regressfiles colnames Hi Hf Hbefore;
    [discriminate|].
  destruct i as [|i]; simpl in *.
  - injection Hi as ->. unfold found in Hf.
    apply orb_false_iff in Hf as [-> ->]. reflexivity.
  - assert (Hg : found fs g = true) by (apply (Hbefore 0%nat); [lia|reflexivity]).
    assert (Hrest : forall j h, (j < i)%nat -> rest !! j = Some h -> found fs h = true)
      by (intros j h Hj Hh; apply (Hbefore (S j)); [lia|exact Hh]).
    unfold found in Hg. destruct (Posixpath.isfile fs g).
    + apply (IH i); assumption.
    + simpl in Hg. rewrite Hg. apply (IH i); assumption.
Qed.

(** Either every input is found, or there is a first one that is not. *)
Lemma first_missing todo :
  Forall (fun f => found fs f = true) todo \/
  exists i f, todo !! i = Some f /\ found fs f = false /\
    forall j g, (j < i)%nat -> todo !! j = Some g -> found fs g = true.
Proof.
  induction todo as [|g rest IH]; [left; constructor|].
  destruct (found fs g) eqn:Hg.
  - destruct IH as [Hall|(i & f & Hi & Hf & Hbefore)].
    + left. constructor; assumption.
    + right. exists (S i), f. repeat split; [exact Hi | exact Hf |].
      intros [|j] h Hj Hh; simpl in Hh; [congruence|]. apply (Hbefore j); [lia|exact Hh].
  - right. exists 0%nat, g. repeat split; [exact Hg|]. intros j h Hj. lia.
Qed.

End Inputs.

(** X17: when lines 44 to 64 raise nothing, every input has been
    paired with one file and one name: the files are the inputs that
    are files and [regression.h5] inside the others, each of them is a
    file, and the names are the ones given, or else the inferred ones;
    so the [zip] of line 81 drops nothing. *)
Theorem resolved_inputs_paired (opts : RateRegression.Options) (fs : Posixpath.FileSystem)
    (regressfiles colnames : list string) :
  RateRegression.resolve opts fs = inr (regressfiles, colnames) ->
  regressfiles = (RateRegression.resolved fs <$> RateRegression.regressfile opts)
  /\ Forall (fun p => Posixpath.isfile fs p = true) regressfiles
  /\ length colnames = length regressfiles
  /\ colnames = (if RateRegression.given (RateRegression.names opts)
                 then default [] (RateRegression.names opts)
                 else RateRegression.inferred_name fs <$> RateRegression.regressfile opts).
Proof.
  unfold RateRegression.resolve.
  destruct (negb _ && _); [discriminate|].
  destruct (first_missing fs (RateRegression.regressfile opts))
    as [Hall|(i & f & Hi & Hf & Hbefore)].
  - rewrite (resolve_loop_found fs _ _ [] [] Hall). simpl.
    assert (Hfiles : Forall (fun p => Posixpath.isfile fs p = true)
                       (RateRegression.resolved fs <$> RateRegression.regressfile opts)).
    { apply Forall_fmap. eapply Forall_impl; [exact Hall|]. intros g Hg. simpl.
      unfold RateRegression.found in Hg. unfold RateRegression.resolved.
      destruct (Posixpath.isfile fs g) eqn:Hfile; [exact Hfile|].
      simpl in Hg. apply andb_true_iff in Hg as [_ Hg]. exact Hg. }
    destruct (RateRegression.names opts) as [[|n ns]|]; simpl.
    + intros [= <- <-]. rewrite !length_fmap. auto.
    + destruct (Nat.eqb_spec (length (RateRegression.regressfile opts)) (S (length ns)))
        as [Hlen|Hlen]; simpl; [|discriminate].
      intros [= <- <-]. rewrite length_fmap. simpl. auto.
    + intros [= <- <-]. rewrite !length_fmap. auto.
  - rewrite (resolve_loop_missing fs _ _ [] [] i f Hi Hf Hbefore). discriminate.
Qed.

Lemma resolved_inputs_paired_witness :
  let opts := {| RateRegression.regressfile := ["run1/ribo.h5"; "run2"];
                 RateRegression.names := None;
                 RateRegression.ratingsfile := "orfratings.h5";
                 RateRegression.force := false |} in
  let fs := RateRegression.fs_of ["run1/ribo.h5"; "run2/regression.h5"] ["run1"; "run2"] in
  ["run1/ribo.h5"; "run2/regression.h5"]
    = (RateRegression.resolved fs <$> RateRegression.regressfile opts)
  /\ length ["ribo"; "run2"] = length ["run1/ribo.h5"; "run2/regression.h5"].
Proof.
  intros opts fs.
  destruct (resolved_inputs_paired opts fs ["run1/ribo.h5"; "run2/regression.h5"]
              ["ribo"; "run2"]) as (H1 & _ & H2 & _).
  - vm_compute. reflexivity.
  - split; [exact H1 | exact H2].
Defined.

(** X18: lines 44 to 64 raise in exactly three cases, tried in this
    order: the ratings file exists and [--force] is off; some input is
    neither a file nor a directory holding [regression.h5], and the
    first such input is the one reported; names are given, but not one
    per input. *)
Theorem resolve_raises (opts : RateRegression.Options) (fs : Posixpath.FileSystem)
    (e : RateRegression.Exception) :
  RateRegression.resolve opts fs = inl e <->
  (RateRegression.force opts = false
   /\ Posixpath.path_exists fs (RateRegression.ratingsfile opts) = true
   /\ e = RateRegression.IOError
            (RateRegression.ratingsfile opts +:+ " exists; use --force to overwrite"))
  \/ ((RateRegression.force opts = true
       \/ Posixpath.path_exists fs (RateRegression.ratingsfile opts) = false)
      /\ exists i f,
           RateRegression.regressfile opts !! i = Some f
           /\ RateRegression.found fs f = false
           /\ (forall j g, (j < i)%nat -> RateRegression.regressfile opts !! j = Some g ->
                           RateRegression.found fs g = true)
           /\ e = RateRegression.IOError
                    ("Regression file/directory " +:+ f +:+ " not found"))
  \/ ((RateRegression.force opts = true
       \/ Posixpath.path_exists fs (RateRegression.ratingsfile opts) = false)
      /\ Forall (fun f => RateRegression.found fs f = true) (RateRegression.regressfile opts)
      /\ RateRegression.given (RateRegression.names opts) = true
      /\ length (RateRegression.regressfile opts)
         <> length (default [] (RateRegression.names opts))
      /\ e = RateRegression.ValueError
               "Precisely one name must be provided for each REGRESSFILE").
Proof.
  split.
  - intros H. unfold RateRegression.resolve in H.
    destruct (negb (RateRegression.force opts)
              && Posixpath.path_exists fs (RateRegression.ratingsfile opts)) eqn:Hguard.
    + left. injection H as <-. apply andb_true_iff in Hguard as [Hforce Hex].
      apply negb_true_iff in Hforce. auto.
    + assert (Hpre : RateRegression.force opts = true
                     \/ Posixpath.path_exists fs (RateRegression.ratingsfile opts) = false).
      { apply andb_false_iff in Hguard as [Hforce|Hex]; [left|right; exact Hex].
        apply negb_false_iff, Hforce. }
      right.
      destruct (first_missing fs (RateRegression.regressfile opts))
        as [Hall|(i & f & Hi & Hf & Hbefore)].
      * right. rewrite (resolve_loop_found fs _ _ [] [] Hall) in H.
        destruct (RateRegression.names opts) as [[|n ns]|]; simpl in H; try discriminate.
        destruct (Nat.eqb_spec (length (RateRegression.regressfile opts)) (S (length ns)))
          as [Hlen|Hlen]; simpl in H; [discriminate|].
        injection H as <-. simpl. auto.
      * left. rewrite (resolve_loop_missing fs _ _ [] [] i f Hi Hf Hbefore) in H.
        injection H as <-. split; [exact Hpre|]. exists i, f. auto.
  - unfold RateRegression.resolve.
    intros [(Hforce & Hex & ->)
           |[(Hpre & i & f & Hi & Hf & Hbefore & ->)|(Hpre & Hall & Hgiven & Hlen & ->)]].
    + rewrite Hforce, Hex. reflexivity.
    + assert (Hguard : negb (RateRegression.force opts)
                       && Posixpath.path_exists fs (RateRegression.ratingsfile opts) = false)
        by (destruct Hpre as [-> | ->]; [reflexivity | apply andb_false_r]).
      rewrite Hguard, (resolve_loop_missing fs _ _ [] [] i f Hi Hf Hbefore). reflexivity.
    + assert (Hguard : negb (RateRegression.force opts)
                       && Posixpath.path_exists fs (RateRegression.ratingsfile opts) = false)
        by (destruct Hpre as [-> | ->]; [reflexivity | apply andb_false_r]).
      rewrite Hguard, (resolve_loop_found fs _ _ [] [] Hall).
      destruct (RateRegression.names opts) as [[|n ns]|]; simpl in *; try discriminate.
      destruct (Nat.eqb_spec (length (RateRegression.regressfile opts)) (S (length ns)))
        as [Heq|Hne]; [contradiction|reflexivity].
Qed.

(** X19: the name inferred for an input file (line 53) is what stands
    between the last slash and the last dot of its path: for
    [dir/stem.ext] and for [stem.ext] it is [stem], whenever [stem]
    holds no slash and [ext] no slash and no dot. *)
Theorem file_colname_stem (dir stem ext : string) :
  Str.contains "/" stem = false ->
  Str.contains "/" ext = false ->
  Str.contains "." ext = false ->
  RateRegression.file_colname (dir +:+ "/" +:+ stem +:+ "." +:+ ext) = stem
  /\ RateRegression.file_colname (stem +:+ "." +:+ ext) = stem.
Proof.
  intros Hstem Hext Hdot.
  assert (Hbase : Str.contains "/" (stem +:+ String "." ext) = false).
  { rewrite contains_app. simpl. rewrite Hstem, Hext. reflexivity. }
  unfold RateRegression.file_colname, Posixpath.basename, Posixpath.sep, Posixpath.extsep.
  change ("." +:+ ext) with (String "." ext).
  change ("/" +:+ stem +:+ String "." ext) with (String "/" (stem +:+ String "." ext)).
  split.
  - rewrite (after_last_app "/" dir _ Hbase), (rpartition_app "." stem ext Hdot). reflexivity.
  - rewrite (after_last_absent "/" _ Hbase), (rpartition_app "." stem ext Hdot). reflexivity.
Qed.

Lemma file_colname_stem_witness :
  RateRegression.file_colname ("/path/to" +:+ "/" +:+ "myfile" +:+ "." +:+ "h5") = "myfile"
  /\ RateRegression.file_colname ("myfile" +:+ "." +:+ "h5") = "myfile".
Proof. apply (file_colname_stem "/path/to" "myfile" "h5"); reflexivity. Defined.

(** X20: the name inferred for an input directory (line 57) is what
    follows the last slash of its path, colons at either end apart: for
    [parent/name] with no slash in [name] and no colon at the ends of
    the path it is [name].  With [name] empty this is a path ending in
    a slash, whose inferred name is the empty string. *)
Theorem dir_colname_component (parent name : string) :
  Str.contains "/" name = false ->
  Str.startswith ":" (parent +:+ "/" +:+ name) = false ->
  Str.endswith ":" (parent +:+ "/" +:+ name) = false ->
  RateRegression.dir_colname (parent +:+ "/" +:+ name) = name.
Proof.
  intros Hname Hstart Hend.
  unfold RateRegression.dir_colname, Posixpath.basename, Posixpath.sep, Posixpath.pathsep.
  rewrite (strip_id ":" _ Hstart Hend).
  change ("/" +:+ name) with (String "/" name). apply after_last_app, Hname.
Qed.

Lemma dir_colname_component_witness :
  RateRegression.dir_colname ("/path/to" +:+ "/" +:+ "mydir") = "mydir"
  /\ RateRegression.dir_colname ("/path/to/mydir" +:+ "/" +:+ "") = "".
Proof.
  split.
  - apply (dir_colname_component "/path/to" "mydir"); reflexivity.
  - apply (dir_colname_component "/path/to/mydir" ""); reflexivity.
Defined.

(** X21: two kinds of input get the empty string for a name: a file
    whose base name holds no dot, and a directory whose path ends in a
    slash, whatever colons it starts with. *)
Theorem unnamed_inputs (regressfile : string) :
  (Str.contains "." (Posixpath.basename regressfile) = false ->
   RateRegression.file_colname regressfile = "")
  /\ (Str.endswith "/" regressfile = true ->
      RateRegression.dir_colname regressfile = "").
Proof.
  split.
  - intros Hdot. unfold RateRegression.file_colname, Posixpath.extsep.
    rewrite (rpartition_absent _ _ Hdot). reflexivity.
  - intros Hend.
    unfold RateRegression.dir_colname, Posixpath.basename, Posixpath.sep, Posixpath.pathsep,
      Str.strip.
    apply after_last_endswith.
    assert (Hne : "/"%char <> ":"%char) by discriminate.
    pose proof (endswith_lstrip "/" ":" regressfile Hne Hend) as Hstripped.
    rewrite (rstrip_endswith "/" ":" _ Hne Hstripped). exact Hstripped.
Qed.
